(** * SHA-Infinity hashing system: a shallow embedding of
      [lib/hashing/sha-infinity.js] and the properties of its iterated hash,
      Merkle tree, inclusion proofs, hash chain and versioned-hash codec. *)

From Stdlib Require Import ZArith List Strings.String Strings.Ascii Strings.Byte Bool Lia.
Import ListNotations.
Local Open Scope string_scope.
Local Open Scope Z_scope.

(** ** The Node.js runtime pieces the module relies on *)

(** [crypto.createHash('sha256').update(bytes).digest('hex')]: SHA-256 as in
    FIPS 180-4, on 32-bit words held in [Z], with the digest rendered as 64
    lowercase hexadecimal characters. *)
Module SHA256.

Definition mask32 : Z := 0xFFFFFFFF.
Definition wrap (x : Z) : Z := Z.land x mask32.
Definition add32 (x y : Z) : Z := wrap (x + y).
Definition rotr (n x : Z) : Z :=
  Z.lor (Z.shiftr x n) (wrap (Z.shiftl x (32 - n))).
Definition not32 (x : Z) : Z := Z.lxor x mask32.

Definition Ch (x y z : Z) : Z := Z.lxor (Z.land x y) (Z.land (not32 x) z).
Definition Maj (x y z : Z) : Z :=
  Z.lxor (Z.lxor (Z.land x y) (Z.land x z)) (Z.land y z).
Definition bsig0 (x : Z) : Z :=
  Z.lxor (Z.lxor (rotr 2 x) (rotr 13 x)) (rotr 22 x).
Definition bsig1 (x : Z) : Z :=
  Z.lxor (Z.lxor (rotr 6 x) (rotr 11 x)) (rotr 25 x).
Definition ssig0 (x : Z) : Z :=
  Z.lxor (Z.lxor (rotr 7 x) (rotr 18 x)) (Z.shiftr x 3).
Definition ssig1 (x : Z) : Z :=
  Z.lxor (Z.lxor (rotr 17 x) (rotr 19 x)) (Z.shiftr x 10).

(** The round constants are the first 32 bits of the fractional parts of the
    cube roots of the first sixty-four primes, the initial chaining value
    those of the square roots of the first eight. *)
Definition is_prime (n : nat) : bool :=
  forallb (fun d => negb (Nat.eqb (Nat.modulo n d) 0)) (seq 2 (n - 2)).

Definition primes (count : nat) : list Z :=
  map Z.of_nat (firstn count (filter is_prime (seq 2 320))).

(** The largest [r] below [2 ^ bits] that [fits], found bit by bit. *)
Fixpoint root_search (bits : nat) (fits : Z -> bool) (r : Z) : Z :=
  match bits with
  | O => r
  | S k =>
      let r' := Z.lor r (Z.shiftl 1 (Z.of_nat k)) in
      root_search k fits (if fits r' then r' else r)
  end.

Definition cbrt_frac (p : Z) : Z :=
  wrap (root_search 36 (fun r => r * r * r <=? Z.shiftl p 96) 0).

Definition sqrt_frac (p : Z) : Z := wrap (Z.sqrt (Z.shiftl p 64)).

Definition K : list Z := Eval vm_compute in map cbrt_frac (primes 64).

(** The eight chaining words a..h. *)
Record state : Type := mkState
  { sa : Z; sb : Z; sc : Z; sd : Z; se : Z; sf : Z; sg : Z; sh : Z }.

Definition of_words (ws : list Z) : state :=
  mkState (nth 0 ws 0) (nth 1 ws 0) (nth 2 ws 0) (nth 3 ws 0)
          (nth 4 ws 0) (nth 5 ws 0) (nth 6 ws 0) (nth 7 ws 0).

Definition init : state := Eval vm_compute in of_words (map sqrt_frac (primes 8)).

(** Message padding: a 1 bit, zeros up to 56 mod 64 bytes, then the bit
    length as a 64-bit big-endian number. *)
Definition be_bytes (n : nat) (v : Z) : list Z :=
  map (fun i => Z.land (Z.shiftr v (8 * Z.of_nat i)) 0xFF) (rev (seq 0 n)).

Definition pad (msg : list Z) : list Z :=
  let len := Z.of_nat (List.length msg) in
  let zeros := Z.to_nat ((55 - len) mod 64) in
  (msg ++ 0x80 :: repeat 0 zeros ++ be_bytes 8 (8 * len))%list.

Fixpoint words (bs : list Z) : list Z :=
  match bs with
  | b0 :: b1 :: b2 :: b3 :: rest =>
      (Z.shiftl b0 24 + Z.shiftl b1 16 + Z.shiftl b2 8 + b3) :: words rest
  | _ => []
  end.

(** The message schedule is kept as a window of the sixteen most recent
    words, oldest first; [extend] produces W[16..63] in order. *)
Fixpoint extend (n : nat) (win : list Z) : list Z :=
  match n with
  | O => []
  | S n' =>
      let w := add32 (add32 (ssig1 (nth 14 win 0)) (nth 9 win 0))
                     (add32 (ssig0 (nth 1 win 0)) (nth 0 win 0)) in
      w :: extend n' (tl win ++ [w])%list
  end.

Definition schedule (block : list Z) : list Z :=
  (block ++ extend 48 block)%list.

Definition round (s : state) (kw : Z * Z) : state :=
  let (k, w) := kw in
  let t1 := add32 (add32 (add32 (sh s) (bsig1 (se s))) (Ch (se s) (sf s) (sg s)))
                  (add32 k w) in
  let t2 := add32 (bsig0 (sa s)) (Maj (sa s) (sb s) (sc s)) in
  mkState (add32 t1 t2) (sa s) (sb s) (sc s) (add32 (sd s) t1) (se s) (sf s) (sg s).

Definition compress (s : state) (block : list Z) : state :=
  let r := fold_left round (combine K (schedule block)) s in
  mkState (add32 (sa s) (sa r)) (add32 (sb s) (sb r))
          (add32 (sc s) (sc r)) (add32 (sd s) (sd r))
          (add32 (se s) (se r)) (add32 (sf s) (sf r))
          (add32 (sg s) (sg r)) (add32 (sh s) (sh r)).

Fixpoint blocks (fuel : nat) (ws : list Z) (s : state) : state :=
  match fuel, ws with
  | S fuel', _ :: _ => blocks fuel' (skipn 16 ws) (compress s (firstn 16 ws))
  | _, _ => s
  end.

Definition hexdigits : list ascii :=
  ["0"; "1"; "2"; "3"; "4"; "5"; "6"; "7";
   "8"; "9"; "a"; "b"; "c"; "d"; "e"; "f"]%char.

Definition hexchar (v : Z) : ascii :=
  nth (Z.to_nat (Z.land v 15)) hexdigits "0"%char.

Definition hex32 (w : Z) (k : string) : string :=
  String (hexchar (Z.shiftr w 28)) (String (hexchar (Z.shiftr w 24))
  (String (hexchar (Z.shiftr w 20)) (String (hexchar (Z.shiftr w 16))
  (String (hexchar (Z.shiftr w 12)) (String (hexchar (Z.shiftr w 8))
  (String (hexchar (Z.shiftr w 4)) (String (hexchar w) k))))))).

Definition hex (s : state) : string :=
  hex32 (sa s) (hex32 (sb s) (hex32 (sc s) (hex32 (sd s)
  (hex32 (se s) (hex32 (sf s) (hex32 (sg s) (hex32 (sh s) ""))))))).

Definition hexdigest (msg : list byte) : string :=
  let ws := words (pad (map (fun b => Z.of_N (Byte.to_N b)) msg)) in
  hex (blocks (List.length ws) ws init).

End SHA256.

(** [Buffer.prototype.toString()] decodes the bytes as UTF-8 and substitutes
    U+FFFD for every maximal ill-formed subsequence.  JavaScript strings are
    held here as their UTF-8 encoding (what [hash.update] feeds to the digest),
    so a well-formed sequence is copied and an ill-formed one becomes the three
    bytes EF BF BD. *)
Module Utf8.

Definition replacement : list byte := [xef; xbf; xbd].

(** A multi-byte sequence in progress: the bytes read so far, how many
    continuation bytes are still needed, and the range allowed for the next
    one. *)
Record partial : Type := mkPartial
  { seen : list byte; needed : nat; lower : N; upper : N }.

Definition between (lo n hi : N) : bool := ((lo <=? n) && (n <=? hi))%N.

Definition lead (b : byte) : list byte * option partial :=
  let n := Byte.to_N b in
  if (n <=? 0x7F)%N then ([b], None)
  else if between 0xC2 n 0xDF then
    ([], Some (mkPartial [b] 1 0x80 0xBF))
  else if between 0xE0 n 0xEF then
    ([], Some (mkPartial [b] 2 (if (n =? 0xE0)%N then 0xA0 else 0x80)%N
                               (if (n =? 0xED)%N then 0x9F else 0xBF)%N))
  else if between 0xF0 n 0xF4 then
    ([], Some (mkPartial [b] 3 (if (n =? 0xF0)%N then 0x90 else 0x80)%N
                               (if (n =? 0xF4)%N then 0x8F else 0xBF)%N))
  else (replacement, None).

Fixpoint decode (bs : list byte) (st : option partial) : list byte :=
  match bs with
  | [] => match st with None => [] | Some _ => replacement end
  | b :: rest =>
      match st with
      | None => let (out, st') := lead b in (out ++ decode rest st')%list
      | Some p =>
          if between (lower p) (Byte.to_N b) (upper p) then
            match needed p with
            | S (S k) =>
                decode rest (Some (mkPartial (seen p ++ [b]) (S k) 0x80 0xBF))
            | _ => (seen p ++ [b] ++ decode rest None)%list
            end
          else
            let (out, st') := lead b in
            (replacement ++ out ++ decode rest st')%list
      end
  end.

Definition toString (buf : list byte) : string :=
  string_of_list_byte (decode buf None).

End Utf8.

(** ** Values *)

(** What the hashing functions accept as [input]: a string or a Buffer. *)
Inductive data : Type :=
| Str (s : string)
| Buf (b : list byte).

Coercion Str : string >-> data.

(** A [depth] argument: an integer or [Infinity]. *)
Inductive number : Type :=
| Int (z : Z)
| Infinity.

(** How a call completes. *)
Inductive outcome (A : Type) : Type :=
| Returned (a : A)
| Thrown (message : string).

Arguments Returned {A} a.
Arguments Thrown {A} message.

(** Truthiness of a string operand of [||]: only the empty string is falsy. *)
Definition truthy (s : string) : bool := negb (s =? "")%string.

(** Reading [arr[i]]: [undefined] outside the array. *)
Definition at_index {A : Type} (arr : list A) (i : Z) : option A :=
  if i <? 0 then None else nth_error arr (Z.to_nat i).

(** A string or [undefined] used as an operand of [+] next to a string. *)
Definition to_string (v : option string) : string :=
  match v with Some s => s | None => "undefined" end.

(** [SHA_INFINITY_CONFIG] *)
Module Config.
Record t : Type := mk
  { baseAlgorithm : string;
    defaultDepth : Z;
    maxDepth : Z;
    encoding : string;
    separator : string;
    version : string }.
End Config.

Definition SHA_INFINITY_CONFIG : Config.t :=
  {| Config.baseAlgorithm := "sha256";
     Config.defaultDepth := 1;
     Config.maxDepth := 1000000;
     Config.encoding := "hex";
     Config.separator := ":";
     Config.version := "1.0.0" |}.

(** The [position] of a sibling: ['left'] or ['right']. *)
Inductive side : Type := Left | Right.

Module MerkleTree.
Record t : Type := mk
  { root : option string;
    leaves : list string;
    levels : list (list string);
    itemCount : option Z }.
End MerkleTree.

Module ProofStep.
Record t : Type := mk { hash : option string; position : side }.
End ProofStep.

Module MerkleProof.
Record t : Type := mk
  { root : option string;
    leaf : option string;
    proof : list ProofStep.t;
    index : Z }.
End MerkleProof.

Module VersionedHash.
Record t : Type := mk { version : string; depth : Z; hash : string }.
End VersionedHash.

Module ChainLink.
Record t : Type := mk { item : string; itemHash : string; chainHash : string }.
End ChainLink.

Module HashChain.
Record t : Type := mk
  { previousHash : option string;
    chain : list ChainLink.t;
    finalHash : string;
    length : Z }.
End HashChain.

(** ** Strings: template literals and the versioned-hash pattern *)

Definition digit_char (d : Z) : ascii := ascii_of_N (Z.to_N (48 + d)).

(** Decimal digits of a non-negative integer, most significant first. *)
Fixpoint digits (fuel : nat) (n : Z) (acc : string) : string :=
  match fuel with
  | O => acc
  | S fuel' =>
      let acc' := String (digit_char (n mod 10)) acc in
      if n <? 10 then acc' else digits fuel' (n / 10) acc'
  end.

(** [`${n}`] for a depth: decimal notation, [Infinity] by name.  This is
    what JavaScript writes for an integer of magnitude below [10 ^ 21]; from
    there on it switches to exponent notation (['1e+21']), which is not
    modelled, so statements about the written depth stay below that
    bound. *)
Definition numberToString (n : number) : string :=
  match n with
  | Infinity => "Infinity"
  | Int z =>
      if z <? 0 then "-" ++ digits (S (Z.to_nat (Z.log2 (- z)))) (- z) ""
      else digits (S (Z.to_nat (Z.log2 z))) z ""
  end.

Definition is_digit (c : ascii) : bool :=
  let n := N_of_ascii c in ((48 <=? n) && (n <=? 57))%N.

(** [[\d.]] *)
Definition is_digit_or_dot (c : ascii) : bool :=
  is_digit c || (N_of_ascii c =? 46)%N.

(** [[a-f0-9]] *)
Definition is_hex (c : ascii) : bool :=
  let n := N_of_ascii c in
  (((97 <=? n) && (n <=? 102)) || ((48 <=? n) && (n <=? 57)))%N.

Fixpoint all_chars (p : ascii -> bool) (s : string) : bool :=
  match s with
  | EmptyString => true
  | String c s' => p c && all_chars p s'
  end.

(** The longest prefix of [s] whose characters satisfy [p], and the rest:
    what a greedy [[...]+] consumes when the next pattern character lies
    outside the class. *)
Fixpoint span (p : ascii -> bool) (s : string) : string * string :=
  match s with
  | EmptyString => ("", "")
  | String c s' =>
      if p c then let (a, b) := span p s' in (String c a, b) else ("", s)
  end.

(** Removes a literal prefix. *)
Fixpoint strip (lit s : string) : option string :=
  match lit, s with
  | EmptyString, _ => Some s
  | String a lit', String b s' => if Ascii.eqb a b then strip lit' s' else None
  | String _ _, EmptyString => None
  end.

(** [str.match(/^sha-inf-v([\d.]+)-d(\d+)-([a-f0-9]+)$/)]: the three captured
    groups, or [None] for [null]. *)
Definition match_versioned (str : string) : option (string * string * string) :=
  match strip "sha-inf-v" str with
  | None => None
  | Some s1 =>
      let (g1, s2) := span is_digit_or_dot s1 in
      match g1, strip "-d" s2 with
      | String _ _, Some s3 =>
          let (g2, s4) := span is_digit s3 in
          match g2, strip "-" s4 with
          | String _ _, Some g3 =>
              if truthy g3 && all_chars is_hex g3 then Some (g1, g2, g3) else None
          | _, _ => None
          end
      | _, _ => None
      end
  end.

(** [parseInt(s, 10)] on a string of decimal digits, as the integer the
    digits write.  This is the value JavaScript returns whenever it is below
    [2 ^ 53]; above, the result is rounded to a double, which is not
    modelled, so statements about a parsed depth stay below that bound. *)
Fixpoint parseDigits (s : string) (acc : Z) : Z :=
  match s with
  | EmptyString => acc
  | String c s' => parseDigits s' (10 * acc + (Z.of_N (N_of_ascii c) - 48))
  end.

Definition parseInt (s : string) : Z := parseDigits s 0.

(** ** The module's functions *)

(** The part of Node's [crypto] module the file uses:
    [crypto.createHash('sha256').update(bytes).digest('hex')]. *)
Class Crypto : Type := { digest : list byte -> string }.

#[export] Instance node_crypto : Crypto := {| digest := SHA256.hexdigest |}.

(** ** A second digest, for exercising the depth ceiling

    Iterating a million real SHA-256 rounds inside the kernel is out of
    reach, so statements that need a concrete run up to [maxDepth] use this
    stand-in: it returns well-formed 64-character lowercase hexadecimal
    digests and swaps the two values [zeros] and [ones]. *)
Module Flip.
Definition zeros : string :=
  "0000000000000000000000000000000000000000000000000000000000000000".
Definition ones : string :=
  "1111111111111111111111111111111111111111111111111111111111111111".
Definition flip (bs : list byte) : string :=
  if (string_of_list_byte bs =? zeros)%string then ones else zeros.
Definition crypto : Crypto := {| digest := flip |}.
End Flip.

Section ShaInfinity.

Context {crypto : Crypto}.

Definition sha256 (input : data) : string :=
  match input with
  | Str s => digest (list_byte_of_string s)
  | Buf b => digest b
  end.

Definition shaInfinity (input : data) (depth : number) : string :=
  let depth :=
    match depth with
    | Infinity => Config.maxDepth SHA_INFINITY_CONFIG
    | Int z => z
    end in
  let depth := if depth <? 1 then 1 else depth in
  let depth :=
    if depth >? Config.maxDepth SHA_INFINITY_CONFIG
    then Config.maxDepth SHA_INFINITY_CONFIG else depth in
  let hash := match input with Str s => s | Buf b => Utf8.toString b end in
  Nat.iter (Z.to_nat depth) (fun hash => sha256 (Str hash)) hash.

Definition shaInfinitySalted (input salt : string) (depth : number) : string :=
  let saltedInput := salt ++ Config.separator SHA_INFINITY_CONFIG ++ input in
  shaInfinity saltedInput depth.

(** One pass of the inner [for] loop of [merkleTree]: adjacent hashes are
    paired, [leaves[i + 1] || left] supplying the right-hand one. *)
Fixpoint nextLevel (leaves : list string) : list string :=
  match leaves with
  | [] => []
  | l :: [] => [sha256 (l ++ l)]
  | l :: r :: rest =>
      sha256 (l ++ (if truthy r then r else l)) :: nextLevel rest
  end.

(** The [while (leaves.length > 1)] loop, on the pair of variables
    [leaves] and [levels]. *)
Fixpoint buildLevels (fuel : nat) (leaves : list string)
         (levels : list (list string)) : list string * list (list string) :=
  match fuel with
  | O => (leaves, levels)
  | S fuel' =>
      if Z.of_nat (List.length leaves) >? 1 then
        let nextLevel := nextLevel leaves in
        buildLevels fuel' nextLevel (levels ++ [nextLevel])%list
      else (leaves, levels)
  end.

Definition merkleTree (items : list string) (depth : number) : MerkleTree.t :=
  match items with
  | [] => MerkleTree.mk (Some (sha256 "")) [] [] None
  | _ :: _ =>
      let leaves := map (fun item => shaInfinity (Str item) depth) items in
      let (leaves', levels) :=
        buildLevels (List.length leaves) leaves [leaves] in
      MerkleTree.mk (nth_error leaves' 0) (nth 0 levels []) levels
                    (Some (Z.of_nat (List.length items)))
  end.

(** The body of the [for] loop of [merkleProof], on the pair of variables
    [idx] and [proof]. *)
Definition proofLevel (st : Z * list ProofStep.t) (levelHashes : list string)
  : Z * list ProofStep.t :=
  let (idx, proof) := st in
  let isRight := Z.rem idx 2 =? 1 in
  let siblingIdx := if isRight then idx - 1 else idx + 1 in
  let proof :=
    if siblingIdx <? Z.of_nat (List.length levelHashes) then
      (proof ++ [ProofStep.mk (at_index levelHashes siblingIdx)
                              (if isRight then Left else Right)])%list
    else proof in
  (idx / 2, proof).

(** The loop visits [tree.levels[0]] to [tree.levels[length - 2]] in order.
    The body has no [throw] and calls nothing that can fail, so the call
    always completes with the proof object. *)
Definition merkleProof (items : list string) (index : Z) (depth : number)
  : outcome MerkleProof.t :=
  let tree := merkleTree items depth in
  let (_, proof) :=
    fold_left proofLevel (removelast (MerkleTree.levels tree)) (index, []) in
  Returned (MerkleProof.mk (MerkleTree.root tree)
                           (at_index (MerkleTree.leaves tree) index)
                           proof index).

Definition verifyStep (hash : string) (step : ProofStep.t) : string :=
  match ProofStep.position step with
  | Left => sha256 (Str (to_string (ProofStep.hash step) ++ hash))
  | Right => sha256 (Str (hash ++ to_string (ProofStep.hash step)))
  end.

Definition verifyMerkleProof (leaf : string) (proof : list ProofStep.t)
           (root : string) : bool :=
  let hash := fold_left verifyStep proof leaf in
  (hash =? root)%string.

Definition compositeHash (hashes : list string) (depth : number) : string :=
  let combined := String.concat (Config.separator SHA_INFINITY_CONFIG) hashes in
  shaInfinity combined depth.

Definition versionedHash (input : data) (depth : number) : string :=
  let hash := shaInfinity input depth in
  "sha-inf-v" ++ Config.version SHA_INFINITY_CONFIG ++
  "-d" ++ numberToString depth ++ "-" ++ hash.

Definition contentAddress (content : data) : string := sha256 content.

(** The body of the [for] loop of [hashChain], on the pair of variables
    [currentHash] and [chain]. *)
Definition chainItem (st : string * list ChainLink.t) (item : string)
  : string * list ChainLink.t :=
  let (currentHash, chain) := st in
  let itemHash := sha256 (Str item) in
  let currentHash := sha256 (Str (currentHash ++ itemHash)) in
  (currentHash, (chain ++ [ChainLink.mk item itemHash currentHash])%list).

(** [previousHash || sha256('genesis')]: [null] and the empty string both
    select the genesis value. *)
Definition hashChain (items : list string) (previousHash : option string)
  : HashChain.t :=
  let currentHash :=
    match previousHash with
    | Some p => if truthy p then p else sha256 "genesis"
    | None => sha256 "genesis"
    end in
  let (currentHash, chain) := fold_left chainItem items (currentHash, []) in
  HashChain.mk previousHash chain currentHash (Z.of_nat (List.length chain)).

End ShaInfinity.

(** [parseVersionedHash] does not hash anything. *)
Definition parseVersionedHash (versionedHashStr : string)
  : outcome VersionedHash.t :=
  match match_versioned versionedHashStr with
  | None => Thrown "Invalid versioned hash format"
  | Some (g1, g2, g3) => Returned (VersionedHash.mk g1 (parseInt g2) g3)
  end.

(** ** What a digest looks like

    [digest('hex')] of SHA-256 is 64 lowercase hexadecimal characters. *)
Definition is_digest (s : string) : bool :=
  Nat.eqb (String.length s) 64 && all_chars is_hex s.

Class HexDigests (crypto : Crypto) : Prop :=
  digest_hex : forall bs : list byte, is_digest (digest bs) = true.

Definition all_truthy (l : list string) : Prop :=
  Forall (fun s => truthy s = true) l.

(** Level [k + 1] of a tree, entry [j], as computed from level [k]. *)
Definition parent_of {crypto : Crypto} (lo : list string) (j : nat)
  : option string :=
  match nth_error lo (2 * j) with
  | Some l =>
      Some (sha256 (Str (l ++ match nth_error lo (2 * j + 1) with
                              | Some r => r
                              | None => l
                              end)))
  | None => None
  end.

(** The levels the [while] loop of [merkleTree] produces from [leaves]:
    each level is paired up into the next until at most one hash remains. *)
Inductive levels_from {crypto : Crypto}
  : list string -> list (list string) -> Prop :=
| levels_top (l : list string) :
    (List.length l <= 1)%nat -> levels_from l [l]
| levels_step (l : list string) (ls : list (list string)) :
    (1 < List.length l)%nat ->
    levels_from (nextLevel l) ls -> levels_from l (l :: ls).

(** The links [hashChain] is to produce for [items] after the chain digest
    [prev]: each link hashes its item, then the previous chain digest
    followed by that item digest. *)
Fixpoint links_from {crypto : Crypto} (prev : string) (items : list string)
  : list ChainLink.t :=
  match items with
  | [] => []
  | item :: rest =>
      let itemDigest := sha256 (Str item) in
      let chainDigest := sha256 (Str (prev ++ itemDigest)) in
      ChainLink.mk item itemDigest chainDigest :: links_from chainDigest rest
  end.

(** The language of [/^sha-inf-v([\d.]+)-d(\d+)-([a-f0-9]+)$/], with the three
    groups named. *)
Definition versioned (g1 g2 g3 : string) : string :=
  "sha-inf-v" ++ g1 ++ "-d" ++ g2 ++ "-" ++ g3.

Definition in_pattern (s g1 g2 g3 : string) : Prop :=
  s = versioned g1 g2 g3 /\
  truthy g1 = true /\ all_chars is_digit_or_dot g1 = true /\
  truthy g2 = true /\ all_chars is_digit g2 = true /\
  truthy g3 = true /\ all_chars is_hex g3 = true.

Definition matches_pattern (s : string) : Prop :=
  exists g1 g2 g3, in_pattern s g1 g2 g3.

(** The grammar as the specification words it:
    [^<prefix>-v<major>.<minor>.<patch>-d<positive integer>-<hex digest>$],
    a hex digest being 64 lowercase hexadecimal characters. *)
Definition spec_grammar (s : string) : bool :=
  match strip "sha-inf-v" s with
  | None => false
  | Some s1 =>
      let (major, s2) := span is_digit s1 in
      match strip "." s2 with
      | None => false
      | Some s3 =>
          let (minor, s4) := span is_digit s3 in
          match strip "." s4 with
          | None => false
          | Some s5 =>
              let (patch, s6) := span is_digit s5 in
              match strip "-d" s6 with
              | None => false
              | Some s7 =>
                  let (d, s8) := span is_digit s7 in
                  match strip "-" s8 with
                  | None => false
                  | Some h =>
                      truthy major && truthy minor && truthy patch &&
                      truthy d && (0 <? parseInt d) && is_digest h
                  end
              end
          end
      end
  end.

(** ** Keyed and timed hashes *)

(** [crypto.createHmac('sha256', key).update(data).digest('hex')]: HMAC as in
    RFC 2104 over the SHA-256 above, with its 64-byte block. *)
Module HMAC.

Definition raw (msg : list Z) : SHA256.state :=
  let ws := SHA256.words (SHA256.pad msg) in
  SHA256.blocks (List.length ws) ws SHA256.init.

Definition state_bytes (s : SHA256.state) : list Z :=
  flat_map (SHA256.be_bytes 4)
    [SHA256.sa s; SHA256.sb s; SHA256.sc s; SHA256.sd s;
     SHA256.se s; SHA256.sf s; SHA256.sg s; SHA256.sh s].

Definition block_key (key : list Z) : list Z :=
  let k := if (64 <? List.length key)%nat then state_bytes (raw key) else key in
  (k ++ repeat 0 (64 - List.length k))%list.

Definition hexmac (key data : list byte) : string :=
  let k := block_key (map (fun b => Z.of_N (Byte.to_N b)) key) in
  let inner :=
    raw (map (Z.lxor 0x36) k ++ map (fun b => Z.of_N (Byte.to_N b)) data)%list in
  SHA256.hex (raw (map (Z.lxor 0x5c) k ++ state_bytes inner)%list).

End HMAC.

Class CryptoHmac : Type := { hmac : list byte -> list byte -> string }.

#[export] Instance node_hmac : CryptoHmac := {| hmac := HMAC.hexmac |}.




Module TimedHash.
Record t : Type := mk
  { hash : string; timestamp : Z; depth : number; version : string }.
End TimedHash.

(** The text [timedHash] hashes: [`${timestamp}${separator}${input}`]. *)
Definition timedInput (timestamp : Z) (input : string) : string :=
  numberToString (Int timestamp) ++ Config.separator SHA_INFINITY_CONFIG ++ input.

(** [timedHash], with the value of [Date.now()] as the argument [now]. *)
Definition timedHash {crypto : Crypto} (now : Z) (input : string)
           (depth : number) : TimedHash.t :=
  let timestamp := now in
  TimedHash.mk (shaInfinity (Str (timedInput timestamp input)) depth)
               timestamp depth (Config.version SHA_INFINITY_CONFIG).

(** [hashFile], with [fs.readFile] as the argument [readFile]: the promise
    resolves with the hash of the content or rejects as the read did. *)
Definition hashFile {crypto : Crypto}
           (readFile : string -> outcome (list byte)) (filePath : string)
           (depth : number) : outcome string :=
  match readFile filePath with
  | Returned content => Returned (shaInfinity (Buf content) depth)
  | Thrown message => Thrown message
  end.

(** A step that carries a hash. *)
Definition step_defined (step : ProofStep.t) : Prop :=
  exists h, ProofStep.hash step = Some h.

(** The value [currentHash] of [hashChain] starts from. *)
Definition chain_start {crypto : Crypto} (previousHash : option string)
  : string :=
  match previousHash with
  | Some p => if truthy p then p else sha256 "genesis"
  | None => sha256 "genesis"
  end.

(** A decoder state whose upper bound for the next byte is at most BF, as
    every state the decoder reaches. *)
Definition steady (st : option Utf8.partial) : Prop :=
  match st with
  | None => True
  | Some p => (Utf8.upper p <= 0xBF)%N
  end.

(** Whether every node on the way up from node [n] of the first level has a
    sibling on its level (the last level, holding the root, is not
    visited). *)
Fixpoint paired_path (levels : list (list string)) (n : nat) : bool :=
  match levels with
  | l :: ((_ :: _) as rest) =>
      (2 * (n / 2) + 1 <? List.length l)%nat && paired_path rest (n / 2)
  | _ => true
  end.

(** ** Auxiliary notions for iterated hashing *)

Definition MAX_DEPTH : Z := Config.maxDepth SHA_INFINITY_CONFIG.

(** The number of digest applications [shaInfinity] performs. *)
Definition rounds (depth : number) : nat :=
  match depth with
  | Infinity => Z.to_nat MAX_DEPTH
  | Int z => Z.to_nat (Z.max 1 (Z.min z MAX_DEPTH))
  end.

Definition text (input : data) : string :=
  match input with Str s => s | Buf b => Utf8.toString b end.

(** Closes a goal [Nat.iter n f x = Nat.iter m f x] when [n = m] is linear
    arithmetic over the normalised depths. *)
Ltac same_rounds :=
  match goal with
  | |- Nat.iter ?n ?f ?x = Nat.iter ?m ?f ?x =>
      replace n with m;
      [ reflexivity
      | unfold rounds, MAX_DEPTH in *;
        cbn [Config.maxDepth SHA_INFINITY_CONFIG] in *; lia ]
  end.

(** ** The runtime model on known values *)

Example sha256_constants :
  firstn 2 SHA256.K = [0x428a2f98; 0x71374491] /\
  nth 63 SHA256.K 0 = 0xc67178f2 /\
  SHA256.sa SHA256.init = 0x6a09e667 /\ SHA256.sh SHA256.init = 0x5be0cd19.
Proof. repeat split. Qed.

Example sha256_empty :
  SHA256.hexdigest [] =
  "e3b0c44298fc1c149afbf4c8996fb92427ae41e4649b934ca495991b7852b855".
Proof. vm_compute. reflexivity. Qed.

Example sha256_abc :
  SHA256.hexdigest (list_byte_of_string "abc") =
  "ba7816bf8f01cfea414140de5dae2223b00361a396177a9cb410ff61f20015ad".
Proof. vm_compute. reflexivity. Qed.

Example sha256_two_blocks :
  SHA256.hexdigest
    (list_byte_of_string "abcdbcdecdefdefgefghfghighijhijkijkljklmklmnlmnomnopnopq") =
  "248d6a61d20638b8e5c026930c3e6039a33ce45964ff2167f6ecedd419db06c1".
Proof. vm_compute. reflexivity. Qed.

Example toString_ascii :
  Utf8.toString (list_byte_of_string "hello") = "hello".
Proof. reflexivity. Qed.

Example toString_euro :
  Utf8.toString [xe2; x82; xac; x21] = string_of_list_byte [xe2; x82; xac; x21].
Proof. reflexivity. Qed.

Example toString_invalid :
  Utf8.toString [x61; xff; xe2; x82; x62] =
  string_of_list_byte [x61; xef; xbf; xbd; xef; xbf; xbd; x62].
Proof. reflexivity. Qed.

(** ** Properties of iterated hashing *)

Section IteratedHash.

Context {crypto : Crypto}.

Lemma shaInfinity_rounds (input : data) (depth : number) :
  shaInfinity input depth =
  Nat.iter (rounds depth) (fun h => sha256 (Str h)) (text input).
Proof.
  unfold shaInfinity, rounds, MAX_DEPTH, text.
  destruct depth as [z|]; cbn [Config.maxDepth SHA_INFINITY_CONFIG].
  - destruct (Z.ltb_spec z 1).
    + replace (Z.max 1 (Z.min z 1000000)) with 1 by lia. reflexivity.
    + destruct (z >? 1000000) eqn:E.
      * apply Z.gtb_lt in E.
        replace (Z.max 1 (Z.min z 1000000)) with 1000000 by lia. reflexivity.
      * assert (z <= 1000000) by (rewrite Z.gtb_ltb in E; apply Z.ltb_ge in E; lia).
        replace (Z.max 1 (Z.min z 1000000)) with z by lia. reflexivity.
  - reflexivity.
Qed.

Lemma rounds_bounds (depth : number) :
  (1 <= rounds depth <= Z.to_nat MAX_DEPTH)%nat.
Proof.
  unfold rounds, MAX_DEPTH; cbn [Config.maxDepth SHA_INFINITY_CONFIG].
  destruct depth; lia.
Qed.

(** Whatever the depth, the result is the digest of something. *)
Lemma shaInfinity_is_digest (input : data) (depth : number) :
  exists bs, shaInfinity input depth = digest bs.
Proof.
  rewrite shaInfinity_rounds.
  destruct (rounds depth) as [|n] eqn:E.
  - pose proof (rounds_bounds depth). lia.
  - cbn [Nat.iter]. eexists. reflexivity.
Qed.


(** C7 (as the code has it): iterating [a + b] times equals iterating [a]
    times and feeding the digest back for [b] more, as long as the sum
    stays within [MAX_DEPTH]. *)
Theorem shaInfinity_compose (x : data) (a b : Z) :
  1 <= a -> 1 <= b -> a + b <= MAX_DEPTH ->
  shaInfinity x (Int (a + b)) =
  shaInfinity (Str (shaInfinity x (Int a))) (Int b).
Proof.
  intros Ha Hb Hab.
  rewrite !shaInfinity_rounds. unfold rounds, text.
  replace (Z.max 1 (Z.min (a + b) MAX_DEPTH)) with (b + a) by lia.
  replace (Z.max 1 (Z.min a MAX_DEPTH)) with a by lia.
  replace (Z.max 1 (Z.min b MAX_DEPTH)) with b by lia.
  rewrite Z2Nat.inj_add by lia.
  apply Nat.iter_add.
Qed.

(** Past the ceiling the two sides run a different number of rounds. *)
Lemma shaInfinity_compose_overflow (x : data) (a b : Z) :
  1 <= a <= MAX_DEPTH -> 1 <= b <= MAX_DEPTH -> MAX_DEPTH < a + b ->
  shaInfinity x (Int (a + b)) =
    Nat.iter (Z.to_nat MAX_DEPTH) (fun h => sha256 (Str h)) (text x) /\
  shaInfinity (Str (shaInfinity x (Int a))) (Int b) =
    Nat.iter (Z.to_nat (a + b)) (fun h => sha256 (Str h)) (text x).
Proof.
  intros Ha Hb Hab.
  rewrite !shaInfinity_rounds. unfold rounds, text. split.
  - replace (Z.max 1 (Z.min (a + b) MAX_DEPTH)) with MAX_DEPTH by lia.
    reflexivity.
  - replace (Z.max 1 (Z.min a MAX_DEPTH)) with a by lia.
    replace (Z.max 1 (Z.min b MAX_DEPTH)) with b by lia.
    replace (a + b) with (b + a) by lia.
    rewrite Z2Nat.inj_add by lia.
    symmetry. apply Nat.iter_add.
Qed.

(** C8: depth is normalised, not rejected.  A depth below 1 behaves as
    depth 1, a depth above [MAX_DEPTH] as [MAX_DEPTH], [Infinity] as
    [MAX_DEPTH]; and every call applies the digest at most [MAX_DEPTH]
    times. *)
Theorem shaInfinity_depth_normalised (x : data) (d : Z) :
  (d < 1 -> shaInfinity x (Int d) = shaInfinity x (Int 1)) /\
  (d > MAX_DEPTH -> shaInfinity x (Int d) = shaInfinity x (Int MAX_DEPTH)) /\
  shaInfinity x Infinity = shaInfinity x (Int MAX_DEPTH) /\
  (forall depth : number,
      exists n : nat,
        (n <= Z.to_nat MAX_DEPTH)%nat /\
        shaInfinity x depth =
        Nat.iter n (fun h => sha256 (Str h)) (text x)).
Proof.
  split; [|split; [|split]].
  - intros Hd. rewrite !shaInfinity_rounds. same_rounds.
  - intros Hd. rewrite !shaInfinity_rounds. same_rounds.
  - rewrite !shaInfinity_rounds. same_rounds.
  - intros depth. exists (rounds depth). split.
    + apply rounds_bounds.
    + apply shaInfinity_rounds.
Qed.

End IteratedHash.



Lemma shaInfinity_compose_witness :
  shaInfinity "hello" (Int (2 + 3)) =
  shaInfinity (Str (shaInfinity "hello" (Int 2))) (Int 3).
Proof.
apply (@shaInfinity_compose node_crypto);
  unfold MAX_DEPTH; cbn [Config.maxDepth SHA_INFINITY_CONFIG]; lia.
Defined.

Lemma flip_even (k : nat) :
  Nat.iter (2 * k) (fun h => @sha256 Flip.crypto (Str h)) Flip.zeros = Flip.zeros.
Proof.
induction k as [|k IH].
- reflexivity.
- replace (2 * S k)%nat with (S (S (2 * k))) by lia.
  rewrite !Nat.iter_succ, IH. reflexivity.
Qed.

(** C7 (as stated) fails once [a + b] exceeds [MAX_DEPTH]: the left side is
    clamped to [MAX_DEPTH] rounds while the right side runs [a + b] of them.
    With [a = MAX_DEPTH], [b = 1] and the [Flip] digest the two sides are the
    two different values [zeros] and [ones]. *)
Lemma shaInfinity_compose_counterexample :
  1 <= MAX_DEPTH /\ 1 <= 1 /\
  rounds (Int (MAX_DEPTH + 1)) <> (rounds (Int MAX_DEPTH) + rounds (Int 1))%nat /\
  @shaInfinity Flip.crypto (Str Flip.zeros) (Int (MAX_DEPTH + 1)) <>
  @shaInfinity Flip.crypto
    (Str (@shaInfinity Flip.crypto (Str Flip.zeros) (Int MAX_DEPTH))) (Int 1).
Proof.
split; [|split; [|split]];
  try (unfold rounds, MAX_DEPTH; cbn [Config.maxDepth SHA_INFINITY_CONFIG]; lia).
destruct (@shaInfinity_compose_overflow Flip.crypto (Str Flip.zeros) MAX_DEPTH 1)
  as [Hl Hr];
  try (unfold MAX_DEPTH; cbn [Config.maxDepth SHA_INFINITY_CONFIG]; lia).
rewrite Hl, Hr. cbn [text].
replace (Z.to_nat (MAX_DEPTH + 1)) with (S (Z.to_nat MAX_DEPTH))
  by (unfold MAX_DEPTH; cbn [Config.maxDepth SHA_INFINITY_CONFIG]; lia).
replace (Z.to_nat MAX_DEPTH) with (2 * Z.to_nat 500000)%nat
  by (unfold MAX_DEPTH; cbn [Config.maxDepth SHA_INFINITY_CONFIG]; lia).
rewrite Nat.iter_succ, flip_even.
vm_compute. discriminate.
Qed.

Lemma shaInfinity_depth_normalised_witness :
  shaInfinity "hello" (Int 0) = shaInfinity "hello" (Int 1) /\
  shaInfinity "hello" (Int 10000000) = shaInfinity "hello" (Int MAX_DEPTH).
Proof.
split.
- apply (proj1 (@shaInfinity_depth_normalised node_crypto "hello" 0)). lia.
- apply (proj1 (proj2 (@shaInfinity_depth_normalised node_crypto "hello" 10000000))).
  unfold MAX_DEPTH; cbn [Config.maxDepth SHA_INFINITY_CONFIG]. lia.
Defined.

(** ** Node's SHA-256 returns hexadecimal digests *)

Lemma hexchar_is_hex (v : Z) : is_hex (SHA256.hexchar v) = true.
Proof.
unfold SHA256.hexchar.
assert (H : Forall (fun c => is_hex c = true) SHA256.hexdigits)
  by (repeat constructor).
destruct (nth_in_or_default (Z.to_nat (Z.land v 15)) SHA256.hexdigits "0"%char)
  as [Hin | ->].
- rewrite Forall_forall in H. apply H, Hin.
- reflexivity.
Qed.

Lemma hex32_shape (w : Z) (k : string) :
  String.length (SHA256.hex32 w k) = (8 + String.length k)%nat /\
  (all_chars is_hex k = true -> all_chars is_hex (SHA256.hex32 w k) = true).
Proof.
split.
- reflexivity.
- intros Hk. unfold SHA256.hex32. cbn [all_chars].
  rewrite !hexchar_is_hex, Hk. reflexivity.
Qed.

#[export] Instance node_crypto_hex : HexDigests node_crypto.
Proof.
intros bs. unfold is_digest. cbn [digest node_crypto].
unfold SHA256.hexdigest, SHA256.hex.
apply andb_true_intro. split.
- reflexivity.
- repeat apply hex32_shape. reflexivity.
Qed.

(** ** Merkle trees *)

Lemma pair_ind {A : Type} (P : list A -> Prop) :
  P [] -> (forall a, P [a]) -> (forall a b l, P l -> P (a :: b :: l)) ->
  forall l, P l.
Proof.
intros H0 H1 H2.
fix IH 1. intros [|a [|b l]].
- exact H0.
- apply H1.
- apply H2, IH.
Qed.

Lemma is_digest_truthy (s : string) : is_digest s = true -> truthy s = true.
Proof.
unfold is_digest. intros H. apply andb_prop in H as [H _].
destruct s; [discriminate | reflexivity].
Qed.

Section Merkle.

Context {crypto : Crypto} {hex : HexDigests crypto}.

Lemma sha256_truthy (input : data) : truthy (sha256 input) = true.
Proof. apply is_digest_truthy. destruct input; apply digest_hex. Qed.

Lemma shaInfinity_truthy (input : data) (depth : number) :
  truthy (shaInfinity input depth) = true.
Proof.
destruct (shaInfinity_is_digest input depth) as [bs ->].
apply is_digest_truthy, digest_hex.
Qed.

Lemma nextLevel_truthy (l : list string) : all_truthy (nextLevel l).
Proof.
induction l as [|a|a b l IH] using pair_ind; cbn [nextLevel].
- constructor.
- repeat constructor. apply sha256_truthy.
- constructor; [apply sha256_truthy | exact IH].
Qed.

Lemma nextLevel_length (l : list string) :
  List.length (nextLevel l) = ((List.length l + 1) / 2)%nat.
Proof.
induction l as [|a|a b l IH] using pair_ind; cbn [nextLevel List.length].
- reflexivity.
- reflexivity.
- rewrite IH.
  replace (S (S (List.length l)) + 1)%nat with (List.length l + 1 + 1 * 2)%nat by lia.
  rewrite Nat.div_add by lia. lia.
Qed.

Lemma nextLevel_nth (l : list string) :
  all_truthy l -> forall j, nth_error (nextLevel l) j = parent_of l j.
Proof.
unfold parent_of.
induction l as [|a|a b l IH] using pair_ind; intros Ht j; cbn [nextLevel].
- destruct j; reflexivity.
- destruct j as [|j]; [reflexivity|].
  replace (2 * S j)%nat with (S (S (2 * j))) by lia.
  destruct j; reflexivity.
- inversion Ht as [|? ? _ Ht']; subst. inversion Ht' as [|? ? Hb Hl]; subst.
  destruct j as [|j].
  + cbn. rewrite Hb. reflexivity.
  + replace (2 * S j)%nat with (S (S (2 * j))) by lia.
    replace (S (S (2 * j)) + 1)%nat with (S (S (2 * j + 1))) by lia.
    cbn [nth_error]. apply IH, Hl.
Qed.

Lemma nextLevel_nonempty (l : list string) : l <> [] -> nextLevel l <> [].
Proof. destruct l as [|a [|b l]]; cbn; congruence. Qed.

(** The loop: started with enough fuel on [leaves], with [leaves] the last
    level pushed so far, it stops because [leaves.length > 1] fails, having
    pushed the levels that follow [leaves]. *)
Lemma buildLevels_spec (fuel : nat) :
  forall (leaves : list string) (acc : list (list string)),
    (List.length leaves <= fuel)%nat ->
    exists ls,
      levels_from leaves ls /\
      buildLevels fuel leaves (acc ++ [leaves])%list =
        (last ls [], (acc ++ ls)%list).
Proof.
induction fuel as [|fuel IH]; intros leaves acc Hfuel.
- exists [leaves]. split; [constructor; lia | reflexivity].
- cbn [buildLevels].
  destruct (Z.of_nat (List.length leaves) >? 1) eqn:E.
  + apply Z.gtb_lt in E.
    destruct (IH (nextLevel leaves) (acc ++ [leaves])%list) as [ls [Hls Hrun]].
    { rewrite nextLevel_length.
      assert ((List.length leaves + 1) / 2 < List.length leaves)%nat
        by (apply Nat.Div0.div_lt_upper_bound; lia).
      lia. }
    exists (leaves :: ls). split.
    * constructor; [lia | exact Hls].
    * rewrite Hrun. rewrite <- app_assoc. cbn [app].
      inversion Hls; reflexivity.
  + exists [leaves]. split; [|reflexivity].
    constructor. rewrite Z.gtb_ltb in E. apply Z.ltb_ge in E. lia.
Qed.

Lemma levels_from_head (l : list string) (ls : list (list string)) :
  levels_from l ls -> nth_error ls 0 = Some l.
Proof. intros H; inversion H; reflexivity. Qed.

Lemma levels_from_adjacent (l : list string) (ls : list (list string)) :
  levels_from l ls ->
  forall k lo hi,
    nth_error ls k = Some lo -> nth_error ls (S k) = Some hi ->
    hi = nextLevel lo /\ (1 < List.length lo)%nat.
Proof.
induction 1 as [l Hl | l ls Hl Hls IH]; intros k lo hi Hlo Hhi.
- destruct k; cbn in Hhi; [discriminate | destruct k; discriminate].
- destruct k as [|k].
  + cbn in Hlo. injection Hlo as <-.
    change (nth_error ls 0 = Some hi) in Hhi.
    apply levels_from_head in Hls. rewrite Hls in Hhi.
    injection Hhi as <-. split; [reflexivity | exact Hl].
  + apply (IH k); assumption.
Qed.

Lemma levels_from_last (l : list string) (ls : list (list string)) :
  levels_from l ls -> l <> [] ->
  exists r, last ls [] = [r].
Proof.
induction 1 as [l Hl | l ls Hl Hls IH]; intros Hne.
- destruct l as [|r [|? ?]]; [congruence | exists r; reflexivity | cbn in Hl; lia].
- destruct IH as [r Hr]; [apply nextLevel_nonempty, Hne|].
  exists r. inversion Hls; subst; exact Hr.
Qed.

Lemma levels_from_truthy (l : list string) (ls : list (list string)) :
  levels_from l ls -> all_truthy l ->
  forall k lo, nth_error ls k = Some lo -> all_truthy lo.
Proof.
induction 1 as [l Hl | l ls Hl Hls IH]; intros Ht k lo Hk.
- destruct k; cbn in Hk; [congruence | destruct k; discriminate].
- destruct k; cbn in Hk; [congruence|].
  apply (IH (nextLevel_truthy l) k), Hk.
Qed.

Lemma leaf_hashes_truthy (items : list string) (depth : number) :
  all_truthy (map (fun item => shaInfinity (Str item) depth) items).
Proof.
apply Forall_forall. intros s Hs. apply in_map_iff in Hs as [item [<- _]].
apply shaInfinity_truthy.
Qed.

Lemma merkleTree_shape (items : list string) (depth : number) :
  items <> [] ->
  let leaves := map (fun item => shaInfinity (Str item) depth) items in
  exists ls,
    levels_from leaves ls /\
    merkleTree items depth =
      MerkleTree.mk (nth_error (last ls []) 0) leaves ls
                    (Some (Z.of_nat (List.length items))).
Proof.
intros Hne leaves. unfold merkleTree.
destruct items as [|item items]; [congruence|].
fold leaves.
destruct (buildLevels_spec (List.length leaves) leaves [] (le_n _))
  as [ls [Hls Hrun]].
cbn [app] in Hrun. rewrite Hrun.
exists ls. split; [exact Hls|].
rewrite (nth_error_nth _ _ _ (levels_from_head _ _ Hls)). reflexivity.
Qed.

(** C4: for a non-empty item sequence, level 0 holds the iterated leaf
    hashes; level [k + 1] has [ceil(len(level k) / 2)] entries, entry [j]
    being the single digest of [left ++ right] for the children at [2j] and
    [2j + 1] of level [k], with [right = left] when the second child is
    missing; and the last level holds exactly the root. *)
Theorem merkleTree_levels (items : list string) (depth : number) :
  items <> [] ->
  let tree := merkleTree items depth in
  nth_error (MerkleTree.levels tree) 0 =
    Some (map (fun item => shaInfinity (Str item) depth) items) /\
  (forall k lo hi,
      nth_error (MerkleTree.levels tree) k = Some lo ->
      nth_error (MerkleTree.levels tree) (S k) = Some hi ->
      List.length hi = ((List.length lo + 1) / 2)%nat /\
      forall j, (j < List.length hi)%nat ->
        exists l,
          nth_error lo (2 * j) = Some l /\
          nth_error hi j =
            Some (sha256 (Str (l ++ match nth_error lo (2 * j + 1) with
                                    | Some r => r
                                    | None => l
                                    end)))) /\
  exists r,
    last (MerkleTree.levels tree) [] = [r] /\ MerkleTree.root tree = Some r.
Proof.
intros Hne tree.
destruct (merkleTree_shape items depth Hne) as [ls [Hls Htree]].
subst tree. rewrite Htree. cbn [MerkleTree.levels MerkleTree.root].
split; [|split].
- apply levels_from_head, Hls.
- intros k lo hi Hlo Hhi.
  destruct (levels_from_adjacent _ _ Hls k lo hi Hlo Hhi) as [-> _].
  split; [apply nextLevel_length|].
  intros j Hj.
  assert (Ht : all_truthy lo).
  { apply (levels_from_truthy _ _ Hls (leaf_hashes_truthy items depth) k), Hlo. }
  pose proof (nextLevel_nth lo Ht j) as Hnth. unfold parent_of in Hnth.
  destruct (nth_error lo (2 * j)) as [l|] eqn:El.
  + exists l. split; [reflexivity | exact Hnth].
  + apply nth_error_None in Hnth. lia.
- destruct (levels_from_last _ _ Hls) as [r Hr].
  { destruct items; [congruence | discriminate]. }
  exists r. rewrite Hr. split; reflexivity.
Qed.

(** The leaves of the tree are one hash per item. *)
Lemma merkleTree_leaves (items : list string) (depth : number) :
  MerkleTree.leaves (merkleTree items depth) =
  map (fun item => shaInfinity (Str item) depth) items.
Proof.
destruct items as [|item items]; [reflexivity|].
destruct (merkleTree_shape (item :: items) depth) as [ls [_ ->]];
  [discriminate | reflexivity].
Qed.

Lemma at_index_outside {A : Type} (arr : list A) (i : Z) :
  ~ (0 <= i < Z.of_nat (List.length arr)) -> at_index arr i = None.
Proof.
intros H. unfold at_index.
destruct (Z.ltb_spec i 0); [reflexivity|].
apply nth_error_None. lia.
Qed.

(** C2 (as the code has it): [merkleProof] has no range check.  For an index
    outside [[0, len(items))] the call completes normally and returns a proof
    object whose [leaf] is [undefined], whose [root] is the root of the tree
    and whose [index] is the argument. *)
Theorem merkleProof_out_of_range (items : list string) (index : Z)
        (depth : number) :
  ~ (0 <= index < Z.of_nat (List.length items)) ->
  exists steps,
    merkleProof items index depth =
    Returned (MerkleProof.mk (MerkleTree.root (merkleTree items depth))
                             None steps index).
Proof.
intros Hout. unfold merkleProof.
destruct (fold_left proofLevel _ _) as [idx steps].
exists steps. rewrite merkleTree_leaves, at_index_outside; [reflexivity|].
rewrite length_map. exact Hout.
Qed.

(** C10: with an empty proof list, [verifyMerkleProof] accepts exactly when
    the leaf equals the claimed root. *)
Theorem verifyMerkleProof_empty (leaf root : string) :
  (verifyMerkleProof leaf [] root = true <-> leaf = root) /\
  verifyMerkleProof root [] root = true.
Proof.
unfold verifyMerkleProof. cbn [fold_left].
split; [apply String.eqb_eq | apply String.eqb_refl].
Qed.

End Merkle.

(** ** Inclusion proofs on trees without odd levels *)

Lemma at_index_nat {A : Type} (arr : list A) (n : nat) :
  at_index arr (Z.of_nat n) = nth_error arr n.
Proof.
unfold at_index. destruct (Z.ltb_spec (Z.of_nat n) 0); [lia|].
rewrite Nat2Z.id. reflexivity.
Qed.

Section PerfectTrees.

Context {crypto : Crypto} {hex : HexDigests crypto}.

Lemma proofLevel_acc (ls : list (list string)) :
  forall idx acc,
    snd (fold_left proofLevel ls (idx, acc)) =
    (acc ++ snd (fold_left proofLevel ls (idx, [])))%list.
Proof.
induction ls as [|l ls IH]; intros idx acc.
- cbn. rewrite app_nil_r. reflexivity.
- cbn [fold_left]. unfold proofLevel at 2 4.
  destruct (_ <? Z.of_nat (List.length l)).
  + rewrite (IH _ (acc ++ _)%list), (IH _ ([] ++ _)%list).
    rewrite <- app_assoc. reflexivity.
  + apply IH.
Qed.

(** On a level of even length every node has a sibling: the step recorded
    for node [n] turns its hash into its parent's. *)
Lemma proofLevel_sibling (l : list string) (n : nat) (leaf : string) :
  all_truthy l -> Nat.Even (List.length l) ->
  nth_error l n = Some leaf ->
  exists step,
    proofLevel (Z.of_nat n, []) l = (Z.of_nat (n / 2), [step]) /\
    nth_error (nextLevel l) (n / 2) = Some (verifyStep leaf step).
Proof.
intros Ht [h Hh] Hn.
assert (Hlt : (n < List.length l)%nat) by (apply nth_error_Some; congruence).
rewrite (nextLevel_nth l Ht). unfold parent_of, proofLevel.
rewrite Z.rem_mod_nonneg by lia.
replace (Z.of_nat n / 2) with (Z.of_nat (n / 2))
  by (rewrite Nat2Z.inj_div; reflexivity).
pose proof (Nat.div_mod_eq n 2) as Hdiv.
pose proof (Nat.mod_upper_bound n 2 ltac:(lia)) as Hmod.
destruct (Z.eqb_spec (Z.of_nat n mod 2) 1) as [Hodd | Heven].
- assert (Hn2 : n = (2 * (n / 2) + 1)%nat).
  { assert (n mod 2 = 1)%nat
      by (apply Nat2Z.inj; rewrite Nat2Z.inj_mod; exact Hodd).
    lia. }
  destruct (Z.ltb_spec (Z.of_nat n - 1) (Z.of_nat (List.length l))); [|lia].
  replace (Z.of_nat n - 1) with (Z.of_nat (2 * (n / 2))) by lia.
  rewrite at_index_nat.
  destruct (nth_error l (2 * (n / 2))) as [sib|] eqn:Es.
  + rewrite <- Hn2, Hn. eexists. split; reflexivity.
  + apply nth_error_None in Es. lia.
- assert (Hn2 : n = (2 * (n / 2))%nat).
  { assert (n mod 2 <> 1)%nat
      by (intros E; apply Heven;
          change 2 with (Z.of_nat 2); rewrite <- Nat2Z.inj_mod, E; reflexivity).
    lia. }
  destruct (Z.ltb_spec (Z.of_nat n + 1) (Z.of_nat (List.length l))); [|lia].
  replace (Z.of_nat n + 1) with (Z.of_nat (2 * (n / 2) + 1)) by lia.
  rewrite at_index_nat.
  destruct (nth_error l (2 * (n / 2) + 1)) as [sib|] eqn:Es.
  + rewrite <- Hn2, Hn. eexists. split; reflexivity.
  + apply nth_error_None in Es. lia.
Qed.

Lemma perfect_levels (l : list string) (ls : list (list string)) :
  levels_from l ls -> all_truthy l ->
  forall k, List.length l = (2 ^ k)%nat ->
  forall n leaf, nth_error l n = Some leaf ->
    last ls [] =
    [fold_left verifyStep
       (snd (fold_left proofLevel (removelast ls) (Z.of_nat n, []))) leaf].
Proof.
induction 1 as [l Hl | l ls Hl Hls IH]; intros Ht k Hk n leaf Hn.
- destruct l as [|x [|y l]]; cbn in Hl; try lia.
  + destruct n; discriminate.
  + destruct n as [|n]; [|destruct n; discriminate].
    injection Hn as ->. reflexivity.
- destruct k as [|k]; [cbn in Hk; lia|].
  assert (Heven : Nat.Even (List.length l)).
  { exists (2 ^ k)%nat. rewrite Hk. cbn. lia. }
  destruct (proofLevel_sibling l n leaf Ht Heven Hn) as [step [Hstep Hparent]].
  assert (Hrm : removelast (l :: ls) = l :: removelast ls)
    by (inversion Hls; reflexivity).
  rewrite Hrm. cbn [fold_left]. rewrite Hstep, proofLevel_acc.
  cbn [app fold_left].
  rewrite <- (IH (nextLevel_truthy l) k) with (n := (n / 2)%nat).
  + inversion Hls; reflexivity.
  + rewrite nextLevel_length, Hk.
    replace (2 ^ S k + 1)%nat with (1 + 2 ^ k * 2)%nat by (cbn; lia).
    rewrite Nat.div_add by lia. reflexivity.
  + exact Hparent.
Qed.

(** When the number of items is a power of two no level has an unpaired
    hash, and the proof generated for any valid index is accepted against
    the root of the tree. *)
Lemma merkleProof_verifies_perfect (items : list string) (depth : number)
      (k n : nat) :
  List.length items = (2 ^ k)%nat -> (n < List.length items)%nat ->
  exists leaf root steps,
    merkleProof items (Z.of_nat n) depth =
      Returned (MerkleProof.mk (Some root) (Some leaf) steps (Z.of_nat n)) /\
    MerkleTree.root (merkleTree items depth) = Some root /\
    verifyMerkleProof leaf steps root = true.
Proof.
intros Hk Hn.
assert (Hne : items <> []).
{ destruct items; [cbn in Hn; lia | discriminate]. }
destruct (merkleTree_shape items depth Hne) as [ls [Hls Htree]].
set (leaves := map (fun item => shaInfinity (Str item) depth) items) in *.
assert (Hlen : List.length leaves = List.length items) by apply length_map.
destruct (nth_error leaves n) as [leaf|] eqn:El;
  [|apply nth_error_None in El; lia].
pose proof (perfect_levels leaves ls Hls (leaf_hashes_truthy items depth) k
              ltac:(lia) n leaf El) as Hlast.
unfold merkleProof. rewrite Htree.
cbn [MerkleTree.levels MerkleTree.root MerkleTree.leaves].
destruct (fold_left proofLevel (removelast ls) (Z.of_nat n, [])) as [idx steps].
cbn [snd] in Hlast. rewrite Hlast. cbn [nth_error].
rewrite at_index_nat, El.
eexists _, _, steps. split; [reflexivity|]. split; [reflexivity|].
unfold verifyMerkleProof. apply String.eqb_refl.
Qed.

End PerfectTrees.

(** ** Merkle trees on concrete inputs *)

Lemma merkleTree_levels_witness :
  ["a"; "b"; "c"] <> [] /\
  exists r,
    last (MerkleTree.levels (merkleTree ["a"; "b"; "c"] (Int 1))) [] = [r] /\
    MerkleTree.root (merkleTree ["a"; "b"; "c"] (Int 1)) = Some r.
Proof.
assert (Hne : ["a"; "b"; "c"] <> []) by discriminate.
split; [exact Hne|].
pose proof (merkleTree_levels ["a"; "b"; "c"] (Int 1) Hne) as H.
cbv zeta in H. destruct H as [_ [_ H]]. exact H.
Defined.

Lemma merkleProof_out_of_range_witness :
  ~ (0 <= 5 < Z.of_nat (List.length ["a"])) /\
  exists steps,
    merkleProof ["a"] 5 (Int 1) =
    Returned (MerkleProof.mk (MerkleTree.root (merkleTree ["a"] (Int 1)))
                             None steps 5).
Proof.
assert (Hout : ~ (0 <= 5 < Z.of_nat (List.length ["a"]))) by (cbn; lia).
split; [exact Hout|].
apply (merkleProof_out_of_range ["a"] 5 (Int 1) Hout).
Defined.

(** C2 (as stated) fails: index 5 of a one-item sequence is out of range,
    yet the call returns a proof object (with an [undefined] leaf and an
    empty proof list) instead of failing. *)
Lemma merkleProof_out_of_range_counterexample :
  ~ (0 <= 5 < Z.of_nat (List.length ["a"])) /\
  merkleProof ["a"] 5 (Int 1) =
    Returned
      (MerkleProof.mk
         (Some "ca978112ca1bbdcafac231b39a23dc4da786eff8147c4e72b9807785afee48bb")
         None [] 5) /\
  forall message, merkleProof ["a"] 5 (Int 1) <> Thrown message.
Proof.
split; [cbn; lia|]. split.
- vm_compute. reflexivity.
- intros message. vm_compute. discriminate.
Qed.

(** C1 at items [["a"; "b"; "c"]], index 2, depth 1: the third leaf has no
    sibling on level 0, so [merkleProof] records nothing for that level,
    while [merkleTree] hashed the leaf with itself; the proof it returns is
    rejected by [verifyMerkleProof] against the tree's own root. *)
Theorem merkleProof_odd_tail_rejected :
  let items := ["a"; "b"; "c"] in
  let leaf := "2e7d2c03a9507ae265ecf5b5356885a53393a2029d241394997265a1a25aefc6" in
  let root := "0bdf27bf7ec894ca7cadfe491ec1a3ece840f117989e8c5e9bd7086467bf6c38" in
  let steps :=
    [ProofStep.mk
       (Some "62af5c3cb8da3e4f25061e829ebeea5c7513c54949115b1acc225930a90154da")
       Left] in
  0 <= 2 < Z.of_nat (List.length items) /\
  MerkleTree.root (merkleTree items (Int 1)) = Some root /\
  merkleProof items 2 (Int 1) =
    Returned (MerkleProof.mk (Some root) (Some leaf) steps 2) /\
  verifyMerkleProof leaf steps root = false.
Proof.
cbv zeta. split; [cbn; lia|]. split; [|split].
- vm_compute. reflexivity.
- vm_compute. reflexivity.
- vm_compute. reflexivity.
Qed.

(** ** Hash chains *)

Section Chain.

Context {crypto : Crypto}.

Lemma last_cons {A : Type} (l : list A) :
  forall x d : A, last (x :: l) d = last l x.
Proof.
induction l as [|a l IH]; intros x d; [reflexivity|].
change (last (x :: a :: l) d) with (last (a :: l) d).
rewrite (IH a d), (IH a x). reflexivity.
Qed.

Lemma chain_fold (items : list string) :
  forall (cur : string) (acc : list ChainLink.t),
    fold_left chainItem items (cur, acc) =
    (last (map ChainLink.chainHash (links_from cur items)) cur,
     (acc ++ links_from cur items)%list).
Proof.
induction items as [|item items IH]; intros cur acc.
- cbn. rewrite app_nil_r. reflexivity.
- cbn [fold_left chainItem links_from]. rewrite IH.
  rewrite <- app_assoc. cbn [app map].
  f_equal. symmetry. apply last_cons.
Qed.

Lemma links_from_items (items : list string) :
  forall prev, map ChainLink.item (links_from prev items) = items.
Proof.
induction items as [|item items IH]; intros prev; cbn; [|rewrite IH]; reflexivity.
Qed.

Lemma links_from_nth (items : list string) :
  forall prev i link,
    nth_error (links_from prev items) i = Some link ->
    ChainLink.itemHash link = sha256 (Str (ChainLink.item link)) /\
    ChainLink.chainHash link =
      sha256 (Str (match i with
                   | O => prev
                   | S j => nth j (map ChainLink.chainHash
                                       (links_from prev items)) prev
                   end ++ ChainLink.itemHash link)).
Proof.
induction items as [|item items IH]; intros prev i link Hi.
- destruct i; discriminate.
- destruct i as [|i]; cbn [links_from nth_error] in Hi.
  + injection Hi as <-. split; reflexivity.
  + destruct (IH _ i link Hi) as [Hitem Hchain].
    split; [exact Hitem|].
    rewrite Hchain. cbn [links_from map ChainLink.chainHash].
    destruct i as [|j]; [reflexivity|].
    cbn [nth]. do 2 f_equal. f_equal. apply nth_indep.
    rewrite length_map.
    assert (nth_error (links_from (sha256 (Str (prev ++ sha256 (Str item)))) items)
                      (S j) <> None) as Hj by congruence.
    apply nth_error_Some in Hj. lia.
Qed.

(** C9: without a previous digest the chain starts from [sha256('genesis')];
    the links carry the items in order, each with [itemHash = sha256(item)]
    and [chainHash = sha256(previous chain digest ++ itemHash)]; [finalHash]
    is the last [chainHash]; and [hashChain(['e1', 'e2'])] is exactly the two
    links of the scenario. *)
Theorem hashChain_genesis (items : list string) :
  let genesis := sha256 "genesis" in
  let c := hashChain items None in
  map ChainLink.item (HashChain.chain c) = items /\
  (forall i link,
      nth_error (HashChain.chain c) i = Some link ->
      ChainLink.itemHash link = sha256 (Str (ChainLink.item link)) /\
      ChainLink.chainHash link =
        sha256 (Str (match i with
                     | O => genesis
                     | S j => nth j (map ChainLink.chainHash (HashChain.chain c))
                                  genesis
                     end ++ ChainLink.itemHash link))) /\
  HashChain.finalHash c =
    last (map ChainLink.chainHash (HashChain.chain c)) genesis /\
  HashChain.length c = Z.of_nat (List.length items) /\
  hashChain ["e1"; "e2"] None =
    (let link0 := sha256 (Str (genesis ++ sha256 "e1")) in
     let link1 := sha256 (Str (link0 ++ sha256 "e2")) in
     HashChain.mk None
       [ChainLink.mk "e1" (sha256 "e1") link0;
        ChainLink.mk "e2" (sha256 "e2") link1]
       link1 2).
Proof.
intros genesis c.
assert (Hc : c = HashChain.mk None (links_from genesis items)
               (last (map ChainLink.chainHash (links_from genesis items)) genesis)
               (Z.of_nat (List.length (links_from genesis items)))).
{ subst c. unfold hashChain. fold genesis. rewrite chain_fold. reflexivity. }
rewrite Hc. cbn [HashChain.chain HashChain.finalHash HashChain.length].
split; [|split; [|split; [|split]]].
- apply links_from_items.
- apply links_from_nth.
- reflexivity.
- rewrite <- (links_from_items items genesis) at 2.
  rewrite length_map. reflexivity.
- reflexivity.
Qed.

End Chain.

(** ** Versioned hashes *)

Lemma strip_app (lit s : string) : strip lit (lit ++ s) = Some s.
Proof.
induction lit as [|a lit IH]; cbn; [destruct s; reflexivity|].
rewrite Ascii.eqb_refl. exact IH.
Qed.

Lemma strip_sound (lit : string) :
  forall s r, strip lit s = Some r -> s = lit ++ r.
Proof.
induction lit as [|a lit IH]; intros s r H.
- destruct s; cbn in H; injection H as <-; reflexivity.
- destruct s as [|b s]; cbn in H; [discriminate|].
  destruct (Ascii.eqb_spec a b) as [<-|]; [|discriminate].
  cbn. f_equal. apply IH, H.
Qed.

Lemma span_app (p : ascii -> bool) (a : string) (c : ascii) (r : string) :
  all_chars p a = true -> p c = false ->
  span p (a ++ String c r) = (a, String c r).
Proof.
intros Ha Hc. induction a as [|x a IH]; cbn.
- rewrite Hc. reflexivity.
- cbn in Ha. apply andb_prop in Ha as [Hx Ha].
  rewrite Hx, (IH Ha). reflexivity.
Qed.

Lemma span_sound (p : ascii -> bool) (s : string) :
  forall a b, span p s = (a, b) -> s = a ++ b /\ all_chars p a = true.
Proof.
induction s as [|x s IH]; intros a b H; cbn in H.
- injection H as <- <-. split; reflexivity.
- destruct (p x) eqn:Hx.
  + destruct (span p s) as [a' b'] eqn:E. injection H as <- <-.
    destruct (IH a' b' eq_refl) as [-> Ha].
    split; [reflexivity | cbn; rewrite Hx; exact Ha].
  + injection H as <- <-. split; reflexivity.
Qed.

(** What the matcher does on a string assembled from well-formed version and
    depth groups and an arbitrary third segment. *)
Lemma match_versioned_assembled (g1 g2 h : string) :
  truthy g1 = true -> all_chars is_digit_or_dot g1 = true ->
  truthy g2 = true -> all_chars is_digit g2 = true ->
  match_versioned (versioned g1 g2 h) =
  if truthy h && all_chars is_hex h then Some (g1, g2, h) else None.
Proof.
intros T1 A1 T2 A2. unfold match_versioned, versioned.
rewrite strip_app.
change ("-d" ++ g2 ++ "-" ++ h) with (String "-" ("d" ++ g2 ++ "-" ++ h)).
rewrite span_app; [|assumption|reflexivity].
destruct g1 as [|c1 g1]; [discriminate|].
change (String "-" ("d" ++ g2 ++ "-" ++ h)) with ("-d" ++ g2 ++ "-" ++ h).
rewrite strip_app.
change ("-" ++ h) with (String "-" h).
rewrite span_app; [|assumption|reflexivity].
destruct g2 as [|c2 g2]; [discriminate|].
change (String "-" h) with ("-" ++ h).
rewrite strip_app. reflexivity.
Qed.

Lemma match_versioned_sound (s g1 g2 g3 : string) :
  match_versioned s = Some (g1, g2, g3) -> in_pattern s g1 g2 g3.
Proof.
unfold match_versioned, in_pattern, versioned. intros H.
destruct (strip "sha-inf-v" s) as [s1|] eqn:E1; [|discriminate].
apply strip_sound in E1. subst s.
destruct (span is_digit_or_dot s1) as [v s2] eqn:E2.
apply span_sound in E2 as [-> Hv].
destruct v as [|cv v]; [discriminate|].
destruct (strip "-d" s2) as [s3|] eqn:E3; [|discriminate].
apply strip_sound in E3. subst s2.
destruct (span is_digit s3) as [d s4] eqn:E4.
apply span_sound in E4 as [-> Hd].
destruct d as [|cd d]; [discriminate|].
destruct (strip "-" s4) as [h|] eqn:E5; [|discriminate].
apply strip_sound in E5. subst s4.
destruct (truthy h && all_chars is_hex h) eqn:E6; [|discriminate].
apply andb_prop in E6 as [Th Hh].
injection H as <- <- <-.
repeat split; assumption.
Qed.

Lemma match_versioned_complete (s g1 g2 g3 : string) :
  in_pattern s g1 g2 g3 -> match_versioned s = Some (g1, g2, g3).
Proof.
intros [-> [T1 [A1 [T2 [A2 [T3 A3]]]]]].
rewrite match_versioned_assembled by assumption.
rewrite T3, A3. reflexivity.
Qed.

(** C3 (as the code has it): [parseVersionedHash] raises exactly on the
    strings outside the language of its pattern; a result it returns is
    read off the string, never guessed: [version] and [hash] are the first
    and third group, and [depth] is the number the second group writes
    whenever that number is below [2 ^ 53] (above it [parseInt] rounds to
    a double, which this statement leaves open); and a third segment that is
    empty or holds a character outside [[a-f0-9]] is rejected.  The pattern
    puts no bound on the length of the digest segment. *)
Theorem parseVersionedHash_rejects :
  (forall s,
      parseVersionedHash s = Thrown "Invalid versioned hash format" <->
      ~ matches_pattern s) /\
  (forall s v,
      parseVersionedHash s = Returned v ->
      exists g2,
        in_pattern s (VersionedHash.version v) g2 (VersionedHash.hash v) /\
        (parseInt g2 < 2 ^ 53 -> VersionedHash.depth v = parseInt g2)) /\
  (forall g1 g2 h,
      truthy g1 = true -> all_chars is_digit_or_dot g1 = true ->
      truthy g2 = true -> all_chars is_digit g2 = true ->
      truthy h && all_chars is_hex h = false ->
      parseVersionedHash (versioned g1 g2 h) =
      Thrown "Invalid versioned hash format").
Proof.
split; [|split].
- intros s. unfold parseVersionedHash. split.
  + intros H [g1 [g2 [g3 Hp]]].
    rewrite (match_versioned_complete _ _ _ _ Hp) in H. discriminate.
  + intros Hn. destruct (match_versioned s) as [[[g1 g2] g3]|] eqn:E;
      [|reflexivity].
    exfalso. apply Hn. exists g1, g2, g3. apply match_versioned_sound, E.
- intros s v. unfold parseVersionedHash.
  destruct (match_versioned s) as [[[g1 g2] g3]|] eqn:E; [|discriminate].
  intros H. injection H as <-. exists g2.
  split; [apply match_versioned_sound, E | intros _; reflexivity].
- intros g1 g2 h T1 A1 T2 A2 Hh. unfold parseVersionedHash.
  rewrite match_versioned_assembled by assumption.
  rewrite Hh. reflexivity.
Qed.

Lemma parseVersionedHash_rejects_witness :
  parseVersionedHash (versioned "1.0.0" "5" "abcxyz") =
    Thrown "Invalid versioned hash format" /\
  exists g2,
    in_pattern "sha-inf-v1.0.0-d5-abc" "1.0.0" g2 "abc" /\
    parseInt g2 < 2 ^ 53 /\ 5 = parseInt g2.
Proof.
split.
- apply (proj2 (proj2 parseVersionedHash_rejects)); reflexivity.
- destruct (proj1 (proj2 parseVersionedHash_rejects)
                   "sha-inf-v1.0.0-d5-abc"
                   (VersionedHash.mk "1.0.0" 5 "abc") eq_refl)
    as [g2 [Hp Hd]].
  cbn [VersionedHash.version VersionedHash.hash VersionedHash.depth] in Hp, Hd.
  exists g2. split; [exact Hp|].
  pose proof (match_versioned_complete _ _ _ _ Hp) as Hm.
  assert (Hg : g2 = "5").
  { change (Some ("1.0.0", "5", "abc") = Some ("1.0.0", g2, "abc")) in Hm.
    congruence. }
  subst g2. split; [reflexivity | apply Hd; reflexivity].
Defined.

(** C3 (as stated) fails: a three-character digest segment has the wrong
    length for a digest and the string is outside the specified grammar, yet
    it is parsed. *)
Lemma parseVersionedHash_short_digest_counterexample :
  is_digest "abc" = false /\
  spec_grammar "sha-inf-v1.0.0-d1-abc" = false /\
  parseVersionedHash "sha-inf-v1.0.0-d1-abc" =
    Returned (VersionedHash.mk "1.0.0" 1 "abc").
Proof. repeat split. Qed.

Example spec_grammar_accepts :
  spec_grammar
    "sha-inf-v1.0.0-d5-e29b0f442cd6cb39f91699d30861d8bf94cd39924b5860c6ddf8c4ba3c397853"
  = true.
Proof. reflexivity. Qed.

Lemma append_assoc (a b c : string) : (a ++ b) ++ c = a ++ b ++ c.
Proof. induction a as [|x a IH]; cbn; [|rewrite IH]; reflexivity. Qed.

Lemma all_chars_app (p : ascii -> bool) (a b : string) :
  all_chars p (a ++ b) = all_chars p a && all_chars p b.
Proof.
induction a as [|x a IH]; cbn; [reflexivity|].
rewrite IH, andb_assoc. reflexivity.
Qed.

Lemma truthy_app_char (a : string) (c : ascii) (b : string) :
  truthy (a ++ String c b) = true.
Proof. destruct a; reflexivity. Qed.

Lemma parseDigits_app (s1 s2 : string) :
  forall acc, parseDigits (s1 ++ s2) acc = parseDigits s2 (parseDigits s1 acc).
Proof.
induction s1 as [|c s1 IH]; intros acc; cbn; [reflexivity | apply IH].
Qed.

Lemma digit_char_spec (m : Z) :
  0 <= m < 10 ->
  is_digit (digit_char m) = true /\
  Z.of_N (N_of_ascii (digit_char m)) - 48 = m.
Proof.
intros H.
assert (m = 0 \/ m = 1 \/ m = 2 \/ m = 3 \/ m = 4 \/
        m = 5 \/ m = 6 \/ m = 7 \/ m = 8 \/ m = 9) as Hm by lia.
repeat (destruct Hm as [-> | Hm]; [split; reflexivity|]).
subst m. split; reflexivity.
Qed.

Lemma digits_app (fuel : nat) :
  forall n acc, digits fuel n acc = digits fuel n "" ++ acc.
Proof.
induction fuel as [|fuel IH]; intros n acc; cbn [digits]; [reflexivity|].
destruct (n <? 10); [reflexivity|].
rewrite (IH _ (String _ acc)), (IH _ (String _ "")).
rewrite append_assoc. reflexivity.
Qed.

(** With fuel for every binary digit of [n], [digits] writes [n] in decimal:
    only digits, and [parseInt] reads [n] back. *)
Lemma digits_round_trip (fuel : nat) :
  forall n,
    0 <= n < 2 ^ Z.of_nat fuel ->
    parseDigits (digits fuel n "") 0 = n /\
    all_chars is_digit (digits fuel n "") = true.
Proof.
induction fuel as [|fuel IH]; intros n Hn.
- cbn in Hn. assert (n = 0) as -> by lia. split; reflexivity.
- rewrite Nat2Z.inj_succ, Z.pow_succ_r in Hn by lia.
  cbn [digits].
  assert (Hm : 0 <= n mod 10 < 10) by (apply Z.mod_pos_bound; lia).
  destruct (digit_char_spec _ Hm) as [Hdig Hval].
  destruct (Z.ltb_spec n 10) as [Hlt | Hge].
  + cbn [parseDigits all_chars]. rewrite Hdig, Hval.
    rewrite Z.mod_small by lia. split; reflexivity.
  + rewrite digits_app.
    destruct (IH (n / 10)) as [Hparse Hall].
    { split; [apply Z.div_pos; lia|].
      apply Z.div_lt_upper_bound; lia. }
    rewrite parseDigits_app, all_chars_app, Hparse, Hall.
    cbn [parseDigits all_chars]. rewrite Hdig, Hval.
    split; [|reflexivity].
    pose proof (Z.div_mod n 10). lia.
Qed.

Lemma digits_truthy (fuel : nat) (n : Z) : truthy (digits (S fuel) n "") = true.
Proof.
cbn [digits]. destruct (n <? 10); [reflexivity|].
rewrite digits_app. apply truthy_app_char.
Qed.

Lemma numberToString_round_trip (d : Z) :
  0 <= d ->
  truthy (numberToString (Int d)) = true /\
  all_chars is_digit (numberToString (Int d)) = true /\
  parseInt (numberToString (Int d)) = d.
Proof.
intros Hd. unfold numberToString, parseInt.
destruct (Z.ltb_spec d 0); [lia|].
split; [apply digits_truthy|].
destruct (digits_round_trip (S (Z.to_nat (Z.log2 d))) d) as [Hparse Hall].
{ split; [exact Hd|].
  rewrite Nat2Z.inj_succ, Z2Nat.id by apply Z.log2_nonneg.
  destruct (Z.eq_dec d 0) as [->|]; [reflexivity|].
  apply Z.log2_spec. lia. }
split; assumption.
Qed.

Section Versioned.

Context {crypto : Crypto} {hex : HexDigests crypto}.

(** C6: for a depth [d] in [[1, MAX_DEPTH]], parsing the formatted versioned
    hash gives back the current version, [d], and [shaInfinity(x, d)]. *)
Theorem versionedHash_round_trip (x : data) (d : Z) :
  1 <= d <= MAX_DEPTH ->
  parseVersionedHash (versionedHash x (Int d)) =
  Returned (VersionedHash.mk (Config.version SHA_INFINITY_CONFIG) d
                             (shaInfinity x (Int d))).
Proof.
intros Hd.
destruct (numberToString_round_trip d) as [Td [Ad Pd]]; [lia|].
destruct (shaInfinity_is_digest x (Int d)) as [bs Hbs].
pose proof (digest_hex bs) as Hhex. rewrite <- Hbs in Hhex.
pose proof (is_digest_truthy _ Hhex) as Th.
unfold is_digest in Hhex. apply andb_prop in Hhex as [_ Ah].
unfold parseVersionedHash, versionedHash.
change ("sha-inf-v" ++ Config.version SHA_INFINITY_CONFIG ++
        "-d" ++ numberToString (Int d) ++ "-" ++ shaInfinity x (Int d))
  with (versioned "1.0.0" (numberToString (Int d)) (shaInfinity x (Int d))).
rewrite match_versioned_assembled by (assumption || reflexivity).
rewrite Th, Ah. cbn [andb]. rewrite Pd. reflexivity.
Qed.

End Versioned.

Lemma versionedHash_round_trip_witness :
  1 <= 5 <= MAX_DEPTH /\
  parseVersionedHash (versionedHash "data" (Int 5)) =
  Returned (VersionedHash.mk "1.0.0" 5 (shaInfinity "data" (Int 5))).
Proof.
assert (H : 1 <= 5 <= MAX_DEPTH)
  by (unfold MAX_DEPTH; cbn [Config.maxDepth SHA_INFINITY_CONFIG]; lia).
split; [exact H|].
apply (versionedHash_round_trip "data" 5 H).
Defined.

(** * Further properties of the module *)

(** ** Inclusion proofs: when they verify, what they contain *)

Section ProofPaths.

Context {crypto : Crypto} {hex : HexDigests crypto}.

(** When node [n] of a level has a sibling, the step recorded for it turns
    its hash into its parent's. *)
Lemma proofLevel_paired (l : list string) (n : nat) (leaf : string) :
  all_truthy l -> (2 * (n / 2) + 1 < List.length l)%nat ->
  nth_error l n = Some leaf ->
  exists step,
    proofLevel (Z.of_nat n, []) l = (Z.of_nat (n / 2), [step]) /\
    nth_error (nextLevel l) (n / 2) = Some (verifyStep leaf step).
Proof.
intros Ht Hpair Hn.
rewrite (nextLevel_nth l Ht). unfold parent_of, proofLevel.
rewrite Z.rem_mod_nonneg by lia.
replace (Z.of_nat n / 2) with (Z.of_nat (n / 2))
  by (rewrite Nat2Z.inj_div; reflexivity).
pose proof (Nat.div_mod_eq n 2) as Hdiv.
pose proof (Nat.mod_upper_bound n 2 ltac:(lia)) as Hmod.
destruct (Z.eqb_spec (Z.of_nat n mod 2) 1) as [Hodd | Heven].
- assert (Hn2 : n = (2 * (n / 2) + 1)%nat).
  { assert (n mod 2 = 1)%nat
      by (apply Nat2Z.inj; rewrite Nat2Z.inj_mod; exact Hodd).
    lia. }
  destruct (Z.ltb_spec (Z.of_nat n - 1) (Z.of_nat (List.length l))); [|lia].
  replace (Z.of_nat n - 1) with (Z.of_nat (2 * (n / 2))) by lia.
  rewrite at_index_nat.
  destruct (nth_error l (2 * (n / 2))) as [sib|] eqn:Es.
  + rewrite <- Hn2, Hn. eexists. split; reflexivity.
  + apply nth_error_None in Es. lia.
- assert (Hn2 : n = (2 * (n / 2))%nat).
  { assert (n mod 2 <> 1)%nat
      by (intros E; apply Heven;
          change 2 with (Z.of_nat 2); rewrite <- Nat2Z.inj_mod, E; reflexivity).
    lia. }
  destruct (Z.ltb_spec (Z.of_nat n + 1) (Z.of_nat (List.length l))); [|lia].
  replace (Z.of_nat n + 1) with (Z.of_nat (2 * (n / 2) + 1)) by lia.
  rewrite at_index_nat.
  destruct (nth_error l (2 * (n / 2) + 1)) as [sib|] eqn:Es.
  + rewrite <- Hn2, Hn. eexists. split; reflexivity.
  + apply nth_error_None in Es. lia.
Qed.

Lemma paired_levels (l : list string) (ls : list (list string)) :
  levels_from l ls -> all_truthy l ->
  forall n leaf,
    nth_error l n = Some leaf -> paired_path ls n = true ->
    last ls [] =
    [fold_left verifyStep
       (snd (fold_left proofLevel (removelast ls) (Z.of_nat n, []))) leaf].
Proof.
induction 1 as [l Hl | l ls Hl Hls IH]; intros Ht n leaf Hn Hp.
- destruct l as [|x [|y l]]; cbn in Hl; try lia.
  + destruct n; discriminate.
  + destruct n as [|n]; [|destruct n; discriminate].
    injection Hn as ->. reflexivity.
- assert (Hcons : exists l' ls', ls = l' :: ls')
    by (inversion Hls; eauto).
  destruct Hcons as [l' [ls' ->]].
  cbn [paired_path] in Hp. apply andb_prop in Hp as [Hsib Hrest].
  apply Nat.ltb_lt in Hsib.
  destruct (proofLevel_paired l n leaf Ht Hsib Hn) as [step [Hstep Hparent]].
  change (removelast (l :: l' :: ls')) with (l :: removelast (l' :: ls')).
  cbn [fold_left]. rewrite Hstep, proofLevel_acc.
  cbn [app fold_left].
  rewrite <- (IH (nextLevel_truthy l) (n / 2)%nat _ Hparent Hrest).
  reflexivity.
Qed.

(** X1: the proof generated for a valid index is accepted against the root
    of the tree whenever every node on the way from the leaf up to the root
    has a sibling on its level. *)
Theorem merkleProof_verifies_paired (items : list string) (depth : number)
        (n : nat) :
  (n < List.length items)%nat ->
  paired_path (MerkleTree.levels (merkleTree items depth)) n = true ->
  exists leaf root steps,
    merkleProof items (Z.of_nat n) depth =
      Returned (MerkleProof.mk (Some root) (Some leaf) steps (Z.of_nat n)) /\
    MerkleTree.root (merkleTree items depth) = Some root /\
    verifyMerkleProof leaf steps root = true.
Proof.
intros Hn Hp.
assert (Hne : items <> []).
{ destruct items; [cbn in Hn; lia | discriminate]. }
destruct (merkleTree_shape items depth Hne) as [ls [Hls Htree]].
set (leaves := map (fun item => shaInfinity (Str item) depth) items) in *.
assert (Hlen : List.length leaves = List.length items) by apply length_map.
destruct (nth_error leaves n) as [leaf|] eqn:El;
  [|apply nth_error_None in El; lia].
rewrite Htree in Hp. cbn [MerkleTree.levels] in Hp.
pose proof (paired_levels leaves ls Hls (leaf_hashes_truthy items depth)
              n leaf El Hp) as Hlast.
unfold merkleProof. rewrite Htree.
cbn [MerkleTree.levels MerkleTree.root MerkleTree.leaves].
destruct (fold_left proofLevel (removelast ls) (Z.of_nat n, [])) as [idx steps].
cbn [snd] in Hlast. rewrite Hlast. cbn [nth_error].
rewrite at_index_nat, El.
eexists _, _, steps. split; [reflexivity|]. split; [reflexivity|].
unfold verifyMerkleProof. apply String.eqb_refl.
Qed.

End ProofPaths.

Lemma merkleProof_verifies_paired_witness :
  (2 < List.length ["a"; "b"; "c"; "d"; "e"; "f"])%nat /\
  exists leaf root steps,
    merkleProof ["a"; "b"; "c"; "d"; "e"; "f"] (Z.of_nat 2) (Int 1) =
      Returned (MerkleProof.mk (Some root) (Some leaf) steps (Z.of_nat 2)) /\
    MerkleTree.root (merkleTree ["a"; "b"; "c"; "d"; "e"; "f"] (Int 1)) =
      Some root /\
    verifyMerkleProof leaf steps root = true.
Proof.
assert (Hn : (2 < List.length ["a"; "b"; "c"; "d"; "e"; "f"])%nat) by (cbn; lia).
split; [exact Hn|].
apply (merkleProof_verifies_paired ["a"; "b"; "c"; "d"; "e"; "f"] (Int 1) 2 Hn).
vm_compute. reflexivity.
Defined.

(** X2: when the number of items is a power of two, the proof generated for
    every valid index is accepted against the root of the tree. *)
Theorem merkleProof_verifies_power_of_two {crypto : Crypto}
        {hex : HexDigests crypto} (items : list string) (depth : number)
        (k n : nat) :
  List.length items = (2 ^ k)%nat -> (n < List.length items)%nat ->
  exists leaf root steps,
    merkleProof items (Z.of_nat n) depth =
      Returned (MerkleProof.mk (Some root) (Some leaf) steps (Z.of_nat n)) /\
    MerkleTree.root (merkleTree items depth) = Some root /\
    verifyMerkleProof leaf steps root = true.
Proof.
intros Hk Hn.
assert (Hne : items <> []).
{ destruct items; [cbn in Hn; lia | discriminate]. }
destruct (merkleTree_shape items depth Hne) as [ls [Hls Htree]].
set (leaves := map (fun item => shaInfinity (Str item) depth) items) in *.
assert (Hlen : List.length leaves = (2 ^ k)%nat)
  by (subst leaves; rewrite length_map; exact Hk).
destruct (nth_error leaves n) as [leaf|] eqn:El;
  [|apply nth_error_None in El; lia].
pose proof (perfect_levels leaves ls Hls (leaf_hashes_truthy items depth) k
              Hlen n leaf El) as Hlast.
unfold merkleProof. rewrite Htree.
cbn [MerkleTree.levels MerkleTree.root MerkleTree.leaves].
destruct (fold_left proofLevel (removelast ls) (Z.of_nat n, [])) as [idx steps].
cbn [snd] in Hlast. rewrite Hlast, at_index_nat, El. cbn [nth_error].
exists leaf, (fold_left verifyStep steps leaf), steps.
split; [reflexivity|]. split; [reflexivity|].
unfold verifyMerkleProof. apply String.eqb_refl.
Qed.

Lemma merkleProof_verifies_power_of_two_witness :
  List.length ["a"; "b"; "c"; "d"] = (2 ^ 2)%nat /\
  (3 < List.length ["a"; "b"; "c"; "d"])%nat /\
  exists leaf root steps,
    merkleProof ["a"; "b"; "c"; "d"] (Z.of_nat 3) (Int 1) =
      Returned (MerkleProof.mk (Some root) (Some leaf) steps (Z.of_nat 3)) /\
    MerkleTree.root (merkleTree ["a"; "b"; "c"; "d"] (Int 1)) = Some root /\
    verifyMerkleProof leaf steps root = true.
Proof.
assert (Hk : List.length ["a"; "b"; "c"; "d"] = (2 ^ 2)%nat) by reflexivity.
assert (Hn : (3 < List.length ["a"; "b"; "c"; "d"])%nat) by (cbn; lia).
split; [exact Hk|]. split; [exact Hn|].
apply (merkleProof_verifies_power_of_two ["a"; "b"; "c"; "d"] (Int 1) 2 3 Hk Hn).
Defined.

Section ProofContents.

Context {crypto : Crypto}.

Lemma proofLevel_defined (ls : list (list string)) :
  forall idx acc,
    0 <= idx -> Forall step_defined acc ->
    Forall step_defined (snd (fold_left proofLevel ls (idx, acc))) /\
    (List.length (snd (fold_left proofLevel ls (idx, acc))) <=
     List.length acc + List.length ls)%nat.
Proof.
induction ls as [|l ls IH]; intros idx acc Hidx Hacc.
- cbn. split; [exact Hacc | lia].
- cbn [fold_left]. unfold proofLevel at 2 4.
  assert (Hhalf : 0 <= idx / 2) by (apply Z.div_pos; lia).
  set (sib := if Z.rem idx 2 =? 1 then idx - 1 else idx + 1).
  assert (Hsib : 0 <= sib).
  { subst sib. destruct (Z.eqb_spec (Z.rem idx 2) 1) as [E|]; [|lia].
    rewrite Z.rem_mod_nonneg in E by lia.
    pose proof (Z.div_mod idx 2). lia. }
  destruct (Z.ltb_spec sib (Z.of_nat (List.length l))) as [Hlt | Hge].
  + destruct (IH (idx / 2) (acc ++ [ProofStep.mk (at_index l sib)
                   (if Z.rem idx 2 =? 1 then Left else Right)])%list Hhalf)
      as [Hall Hlen].
    { apply Forall_app. split; [exact Hacc|]. constructor; [|constructor].
      unfold step_defined, at_index. cbn [ProofStep.hash].
      destruct (Z.ltb_spec sib 0); [lia|].
      destruct (nth_error l (Z.to_nat sib)) as [h|] eqn:E; [eauto|].
      apply nth_error_None in E. lia. }
    split; [exact Hall|].
    rewrite length_app in Hlen. cbn [List.length] in *. lia.
  + destruct (IH (idx / 2) acc Hhalf Hacc) as [Hall Hlen].
    split; [exact Hall | cbn [List.length]; lia].
Qed.

(** X3: for an item at a valid index, the returned [leaf] is the iterated
    hash of that item and [root] the root of the tree; every recorded step
    carries a hash (never [undefined]); and there is at most one step per
    level below the root. *)
Theorem merkleProof_in_range (items : list string) (depth : number)
        (n : nat) (item : string) :
  nth_error items n = Some item ->
  exists steps,
    merkleProof items (Z.of_nat n) depth =
      Returned (MerkleProof.mk (MerkleTree.root (merkleTree items depth))
                               (Some (shaInfinity (Str item) depth))
                               steps (Z.of_nat n)) /\
    Forall step_defined steps /\
    (List.length steps <=
     List.length (MerkleTree.levels (merkleTree items depth)) - 1)%nat.
Proof.
intros Hn. unfold merkleProof.
destruct (proofLevel_defined
            (removelast (MerkleTree.levels (merkleTree items depth)))
            (Z.of_nat n) [] ltac:(lia) (Forall_nil _)) as [Hall Hlen].
destruct (fold_left proofLevel _ _) as [idx steps].
cbn [snd] in Hall, Hlen.
exists steps. split; [|split].
- rewrite merkleTree_leaves, at_index_nat, nth_error_map, Hn. reflexivity.
- exact Hall.
- cbn [List.length] in Hlen.
  assert (Hrm : forall (A : Type) (xs : list A),
             List.length (removelast xs) = (List.length xs - 1)%nat).
  { intros A xs. induction xs as [|x [|y xs] IHxs]; [reflexivity..|].
    change (removelast (x :: y :: xs)) with (x :: removelast (y :: xs)).
    cbn [List.length] in *. rewrite IHxs. lia. }
  rewrite Hrm in Hlen. exact Hlen.
Qed.

(** X5: proofs compose.  If [p1] takes [leaf] to the intermediate hash
    [mid], then [p1 ++ p2] is accepted for [leaf] against [root] exactly when
    [p2] is accepted for [mid]. *)
Theorem verifyMerkleProof_app (leaf mid root : string)
        (p1 p2 : list ProofStep.t) :
  verifyMerkleProof leaf p1 mid = true ->
  verifyMerkleProof leaf (p1 ++ p2) root = verifyMerkleProof mid p2 root.
Proof.
unfold verifyMerkleProof. intros H. apply String.eqb_eq in H.
rewrite fold_left_app, H. reflexivity.
Qed.

End ProofContents.

Lemma merkleProof_in_range_witness :
  exists steps,
    merkleProof ["a"; "b"; "c"] (Z.of_nat 2) (Int 1) =
      Returned (MerkleProof.mk
                  (MerkleTree.root (merkleTree ["a"; "b"; "c"] (Int 1)))
                  (Some (shaInfinity "c" (Int 1))) steps (Z.of_nat 2)) /\
    Forall step_defined steps /\
    (List.length steps <=
     List.length (MerkleTree.levels (merkleTree ["a"; "b"; "c"] (Int 1))) - 1)%nat.
Proof.
apply (merkleProof_in_range ["a"; "b"; "c"] (Int 1) 2 "c"). reflexivity.
Defined.

Lemma verifyMerkleProof_app_witness :
  let step := ProofStep.mk (Some "00") Right in
  verifyMerkleProof "ab" ([step] ++ [step]) "ff" =
  verifyMerkleProof (sha256 "ab00") [step] "ff".
Proof.
cbv zeta.
apply (verifyMerkleProof_app "ab" (sha256 "ab00") "ff").
unfold verifyMerkleProof. cbn [fold_left verifyStep ProofStep.position
  ProofStep.hash to_string].
apply String.eqb_refl.
Defined.

(** ** The height of a tree *)

Section Height.

Context {crypto : Crypto}.

Lemma levels_from_height (l : list string) (ls : list (list string)) :
  levels_from l ls -> l <> [] ->
  (1 <= List.length ls)%nat /\
  (List.length l <= 2 ^ (List.length ls - 1))%nat /\
  (1 < List.length l -> 2 ^ (List.length ls - 2) < List.length l)%nat.
Proof.
induction 1 as [l Hl | l ls Hl Hls IH]; intros Hne.
- destruct l as [|x [|y l]]; cbn in *; [congruence | lia | lia].
- destruct (IH (nextLevel_nonempty l Hne)) as [H1 [Hup Hlow]].
  rewrite nextLevel_length in Hup, Hlow.
  cbn [List.length].
  replace (S (List.length ls) - 1)%nat with (S (List.length ls - 1)) by lia.
  pose proof (Nat.div_mod_eq (List.length l + 1) 2) as Hdiv.
  pose proof (Nat.mod_upper_bound (List.length l + 1) 2 ltac:(lia)) as Hmod.
  split; [lia|]. split.
  + rewrite Nat.pow_succ_r'. lia.
  + intros _.
    destruct (Nat.eq_dec ((List.length l + 1) / 2) 1) as [E1 | E1].
    * assert (ls = [nextLevel l]) as ->.
      { inversion Hls as [? Hle | ? ? Hgt]; subst; [reflexivity|].
        rewrite nextLevel_length in Hgt. lia. }
      cbn. lia.
    * assert (Hm : (1 < (List.length l + 1) / 2)%nat) by lia.
      specialize (Hlow Hm).
      assert (H2 : (2 <= List.length ls)%nat).
      { inversion Hls as [? Hle | ? ls0 Hgt Hls0]; subst.
        - rewrite nextLevel_length in Hle. lia.
        - inversion Hls0; cbn [List.length]; lia. }
      replace (S (List.length ls) - 2)%nat
        with (S (List.length ls - 2)) by lia.
      rewrite Nat.pow_succ_r'. lia.
Qed.

(** X4: a tree over [n >= 1] items has [L] levels with
    [2 ^ (L - 2) < n <= 2 ^ (L - 1)] (the lower bound for [n > 1]): as many
    as halving needs and no more, so an inclusion proof, with at most
    [L - 1] steps, is logarithmic in the number of items. *)
Theorem merkleTree_height (items : list string) (depth : number) :
  items <> [] ->
  let L := List.length (MerkleTree.levels (merkleTree items depth)) in
  (1 <= L)%nat /\
  (List.length items <= 2 ^ (L - 1))%nat /\
  (1 < List.length items -> 2 ^ (L - 2) < List.length items)%nat.
Proof.
intros Hne.
destruct (merkleTree_shape items depth Hne) as [ls [Hls ->]].
cbn [MerkleTree.levels]. cbv zeta.
rewrite <- (length_map (fun item => shaInfinity (Str item) depth) items).
apply (levels_from_height _ _ Hls).
destruct items; [congruence | discriminate].
Qed.

End Height.

Lemma merkleTree_height_witness :
  let L := List.length (MerkleTree.levels
                          (merkleTree ["a"; "b"; "c"; "d"; "e"] (Int 1))) in
  (1 <= L)%nat /\
  (List.length ["a"; "b"; "c"; "d"; "e"] <= 2 ^ (L - 1))%nat /\
  (1 < List.length ["a"; "b"; "c"; "d"; "e"] ->
   2 ^ (L - 2) < List.length ["a"; "b"; "c"; "d"; "e"])%nat.
Proof.
apply (merkleTree_height ["a"; "b"; "c"; "d"; "e"] (Int 1)). discriminate.
Defined.

(** ** Hash chains: continuation and the missing previous hash *)

Section ChainExtension.

Context {crypto : Crypto} {hex : HexDigests crypto}.

Lemma links_from_length (items : list string) (prev : string) :
  List.length (links_from prev items) = List.length items.
Proof.
rewrite <- (length_map ChainLink.item), links_from_items. reflexivity.
Qed.

Lemma hashChain_links (items : list string) (previousHash : option string) :
  hashChain items previousHash =
  HashChain.mk previousHash
    (links_from (chain_start previousHash) items)
    (last (map ChainLink.chainHash
               (links_from (chain_start previousHash) items))
          (chain_start previousHash))
    (Z.of_nat (List.length items)).
Proof.
unfold hashChain. fold (chain_start previousHash).
rewrite chain_fold. cbn [app].
rewrite links_from_length. reflexivity.
Qed.

Lemma links_from_app (a b : list string) :
  forall prev,
    links_from prev (a ++ b) =
    (links_from prev a ++
     links_from (last (map ChainLink.chainHash (links_from prev a)) prev) b)%list.
Proof.
induction a as [|x a IH]; intros prev; [reflexivity|].
cbn [app links_from map ChainLink.chainHash]. rewrite IH, last_cons.
reflexivity.
Qed.

Lemma last_app_default {A : Type} (xs ys : list A) :
  forall d : A, last (xs ++ ys) d = last ys (last xs d).
Proof.
induction xs as [|x xs IH]; intros d; [reflexivity|].
change ((x :: xs) ++ ys)%list with (x :: (xs ++ ys))%list.
rewrite !last_cons. apply IH.
Qed.

Lemma chain_start_truthy (previousHash : option string) :
  truthy (chain_start previousHash) = true.
Proof.
unfold chain_start. destruct previousHash as [p|].
- destruct (truthy p) eqn:E; [exact E | apply sha256_truthy].
- apply sha256_truthy.
Qed.

Lemma finalHash_truthy (items : list string) (previousHash : option string) :
  truthy (HashChain.finalHash (hashChain items previousHash)) = true.
Proof.
rewrite hashChain_links. cbn [HashChain.finalHash].
destruct items as [|x items] using rev_ind.
- apply chain_start_truthy.
- rewrite links_from_app, map_app, last_app_default.
  cbn [links_from map last ChainLink.chainHash].
  apply sha256_truthy.
Qed.

(** X6: a chain is continued by calling [hashChain] again with the final
    hash of the first part: chaining [items1 ++ items2] gives the links of
    [items1] followed by those obtained for [items2] from that final hash,
    and the same final hash. *)
Theorem hashChain_continue (items1 items2 : list string)
        (previousHash : option string) :
  let first := hashChain items1 previousHash in
  let second := hashChain items2 (Some (HashChain.finalHash first)) in
  let whole := hashChain (items1 ++ items2) previousHash in
  HashChain.chain whole =
    (HashChain.chain first ++ HashChain.chain second)%list /\
  HashChain.finalHash whole = HashChain.finalHash second /\
  HashChain.length whole = HashChain.length first + HashChain.length second.
Proof.
intros first second whole.
pose proof (finalHash_truthy items1 previousHash) as Ht. fold first in Ht.
subst second whole. rewrite !hashChain_links.
cbn [HashChain.chain HashChain.finalHash HashChain.length].
assert (Hs : chain_start (Some (HashChain.finalHash first)) =
             HashChain.finalHash first).
{ cbn [chain_start]. rewrite Ht. reflexivity. }
rewrite Hs. subst first. rewrite hashChain_links.
cbn [HashChain.chain HashChain.finalHash HashChain.length].
split; [|split].
- apply links_from_app.
- rewrite links_from_app, map_app. apply last_app_default.
- rewrite length_app. lia.
Qed.

(** X7: an empty string as [previousHash] is treated like a missing one (the
    chain starts from [sha256('genesis')]), any other string is the start
    itself; with no items the final hash is that start and the chain is
    empty. *)
Theorem hashChain_start (items : list string) (p : string) :
  HashChain.chain (hashChain items (Some "")) =
    HashChain.chain (hashChain items None) /\
  HashChain.finalHash (hashChain items (Some "")) =
    HashChain.finalHash (hashChain items None) /\
  hashChain [] None = HashChain.mk None [] (sha256 "genesis") 0 /\
  (p <> "" ->
   hashChain [] (Some p) = HashChain.mk (Some p) [] p 0 /\
   forall item rest,
     nth_error (HashChain.chain (hashChain (item :: rest) (Some p))) 0 =
     Some (ChainLink.mk item (sha256 (Str item))
                        (sha256 (Str (p ++ sha256 (Str item)))))).
Proof.
split; [rewrite !hashChain_links; reflexivity|].
split; [rewrite !hashChain_links; reflexivity|].
split; [reflexivity|].
intros Hp.
assert (Ht : truthy p = true) by (destruct p; [congruence | reflexivity]).
split.
- unfold hashChain. rewrite Ht. reflexivity.
- intros item rest. rewrite hashChain_links.
  cbn [HashChain.chain chain_start]. rewrite Ht. reflexivity.
Qed.

End ChainExtension.

Lemma hashChain_start_witness :
  hashChain [] (Some "abc") = HashChain.mk (Some "abc") [] "abc" 0.
Proof.
apply (proj2 (proj2 (proj2 (hashChain_start [] "abc")))). discriminate.
Defined.

Lemma hashChain_continue_witness :
  HashChain.finalHash (hashChain (["e1"] ++ ["e2"; "e3"]) None) =
  HashChain.finalHash
    (hashChain ["e2"; "e3"]
               (Some (HashChain.finalHash (hashChain ["e1"] None)))).
Proof.
exact (proj1 (proj2 (hashChain_continue ["e1"] ["e2"; "e3"] None))).
Defined.

(** ** Separators: salted, composite and timed hashes *)

Lemma string_length_app (a b : string) :
  String.length (a ++ b) = (String.length a + String.length b)%nat.
Proof. induction a as [|x a IH]; cbn; [|rewrite IH]; reflexivity. Qed.

Lemma append_inv_length (a b r r' : string) :
  String.length a = String.length b -> a ++ r = b ++ r' -> a = b /\ r = r'.
Proof.
revert b. induction a as [|x a IH]; intros [|y b] Hlen H; try discriminate.
- split; [reflexivity | exact H].
- cbn in Hlen, H. injection H as -> H. injection Hlen as Hlen.
  destruct (IH b Hlen H) as [-> ->]. split; reflexivity.
Qed.

Lemma is_digest_length (s : string) :
  is_digest s = true -> String.length s = 64%nat.
Proof.
unfold is_digest. intros H. apply andb_prop in H as [H _].
apply Nat.eqb_eq, H.
Qed.

Lemma concat_cons (sep x y : string) (ys : list string) :
  String.concat sep (x :: y :: ys) = x ++ sep ++ String.concat sep (y :: ys).
Proof. reflexivity. Qed.

Lemma concat_longer (sep x y : string) (ys : list string) :
  (String.length x + String.length sep <=
   String.length (String.concat sep (x :: y :: ys)))%nat.
Proof. rewrite concat_cons, !string_length_app. lia. Qed.

Lemma concat_digests_injective (hs1 : list string) :
  forall hs2,
    Forall (fun h => is_digest h = true) hs1 ->
    Forall (fun h => is_digest h = true) hs2 ->
    String.concat ":" hs1 = String.concat ":" hs2 -> hs1 = hs2.
Proof.
induction hs1 as [|h t IH]; intros hs2 H1 H2 E.
- destruct hs2 as [|h' t']; [reflexivity|].
  inversion H2 as [|? ? Hh' _]; subst.
  apply is_digest_length in Hh'. apply (f_equal String.length) in E.
  destruct t' as [|y t'].
  + cbn in E. lia.
  + pose proof (concat_longer ":" h' y t'). cbn in E. cbn in H. lia.
- inversion H1 as [|? ? Hh Ht]; subst.
  pose proof (is_digest_length _ Hh) as Lh.
  destruct hs2 as [|h' t'].
  + apply (f_equal String.length) in E.
    destruct t as [|y t].
    * cbn in E. lia.
    * pose proof (concat_longer ":" h y t). cbn in E. cbn in H. lia.
  + inversion H2 as [|? ? Hh' Ht']; subst.
    pose proof (is_digest_length _ Hh') as Lh'.
    destruct t as [|y t], t' as [|y' t'].
    * cbn in E. congruence.
    * pose proof (concat_longer ":" h' y' t') as Hl.
      rewrite <- E in Hl. cbn in Hl. lia.
    * pose proof (concat_longer ":" h y t) as Hl.
      rewrite E in Hl. cbn in Hl. lia.
    * rewrite !concat_cons in E.
      destruct (append_inv_length h h' _ _ ltac:(lia) E) as [-> E'].
      cbn [append] in E'. injection E' as E'.
      f_equal. apply (IH _ Ht Ht' E').
Qed.

Lemma concat_split (xs : list string) (a b : string) (ys : list string) :
  String.concat ":" (xs ++ (a ++ ":" ++ b) :: ys) =
  String.concat ":" (xs ++ a :: b :: ys).
Proof.
induction xs as [|x xs IH].
- cbn [app]. rewrite concat_cons. destruct ys as [|y ys].
  + reflexivity.
  + rewrite !concat_cons, !append_assoc. reflexivity.
- destruct xs as [|x' xs].
  + cbn [app] in *. rewrite !(concat_cons _ x), IH. reflexivity.
  + change ((x :: x' :: xs) ++ ?l)%list with (x :: x' :: (xs ++ l))%list.
    rewrite !(concat_cons _ x).
    change (x' :: (xs ++ ?l))%list with ((x' :: xs) ++ l)%list.
    rewrite IH. reflexivity.
Qed.

Section Separators.

Context {crypto : Crypto}.

(** X8: the salt is joined to the input by a plain [':'], so the boundary
    between them is not part of what is hashed: moving text across it, as in
    salt ["a"], input ["b:c"] against salt ["a:b"], input ["c"], gives the
    same hash. *)
Theorem shaInfinitySalted_boundary (a b c : string) (depth : number) :
  shaInfinitySalted (b ++ ":" ++ c) a depth =
  shaInfinitySalted c (a ++ ":" ++ b) depth.
Proof.
unfold shaInfinitySalted. cbn [Config.separator SHA_INFINITY_CONFIG].
rewrite !append_assoc. reflexivity.
Qed.

(** X9: [compositeHash] joins its arguments with [':'].  An element that
    itself contains [':'] is indistinguishable from two elements; for
    arguments that are digests the joined text determines the list. *)
Theorem compositeHash_separator :
  (forall xs a b ys depth,
      compositeHash (xs ++ (a ++ ":" ++ b) :: ys) depth =
      compositeHash (xs ++ a :: b :: ys) depth) /\
  (forall hs1 hs2,
      Forall (fun h => is_digest h = true) hs1 ->
      Forall (fun h => is_digest h = true) hs2 ->
      String.concat (Config.separator SHA_INFINITY_CONFIG) hs1 =
      String.concat (Config.separator SHA_INFINITY_CONFIG) hs2 ->
      hs1 = hs2).
Proof.
split.
- intros xs a b ys depth. unfold compositeHash.
  cbn [Config.separator SHA_INFINITY_CONFIG]. rewrite concat_split. reflexivity.
- intros hs1 hs2. apply concat_digests_injective.
Qed.

(** X10: the text [timedHash] hashes determines both the timestamp and the
    input (the timestamp is all digits and the separator is not one), and the
    returned hash can be recomputed from the returned timestamp as a salted
    hash. *)
Theorem timedHash_binding (t1 t2 : Z) (i1 i2 : string) (depth : number) :
  0 <= t1 -> 0 <= t2 ->
  (timedInput t1 i1 = timedInput t2 i2 -> t1 = t2 /\ i1 = i2) /\
  TimedHash.hash (timedHash t1 i1 depth) =
    shaInfinitySalted i1 (numberToString (Int (TimedHash.timestamp
                                                 (timedHash t1 i1 depth))))
                      depth.
Proof.
intros H1 H2. split; [|reflexivity].
unfold timedInput. cbn [Config.separator SHA_INFINITY_CONFIG].
destruct (numberToString_round_trip t1 H1) as [_ [A1 P1]].
destruct (numberToString_round_trip t2 H2) as [_ [A2 P2]].
intros E. apply (f_equal (span is_digit)) in E.
change (":" ++ i1) with (String ":" i1) in E.
change (":" ++ i2) with (String ":" i2) in E.
rewrite !span_app in E by (assumption || reflexivity).
injection E as E1 E2. split; [|exact E2].
assert (E : numberToString (Int t1) = numberToString (Int t2)) by exact E1.
rewrite <- P1, <- P2. f_equal. exact E.
Qed.

End Separators.

Lemma compositeHash_separator_witness :
  [sha256 "x"; sha256 "y"] = [sha256 "x"; sha256 "y"].
Proof.
apply (proj2 (@compositeHash_separator node_crypto)).
- repeat constructor; apply digest_hex.
- repeat constructor; apply digest_hex.
- reflexivity.
Defined.

Lemma timedHash_binding_witness :
  1700000000000 = 1700000000000 /\ "a" = "a".
Proof.
apply (proj1 (@timedHash_binding node_crypto 1700000000000 1700000000000
                "a" "a" (Int 1) ltac:(lia) ltac:(lia))).
reflexivity.
Defined.

(** ** Versioned hashes outside the normal depth range *)

Lemma match_versioned_bad_depth (g1 g2 h : string) (c : ascii) :
  truthy g1 = true -> all_chars is_digit_or_dot g1 = true ->
  is_digit c = false ->
  match_versioned (versioned g1 (String c g2) h) = None.
Proof.
intros T1 A1 Hc. unfold match_versioned, versioned.
rewrite strip_app.
change ("-d" ++ String c g2 ++ "-" ++ h)
  with (String "-" ("d" ++ String c g2 ++ "-" ++ h)).
rewrite span_app; [|assumption|reflexivity].
destruct g1 as [|c1 g1]; [discriminate|].
change (String "-" ("d" ++ String c g2 ++ "-" ++ h))
  with ("-d" ++ String c g2 ++ "-" ++ h).
rewrite strip_app.
cbn [append span]. rewrite Hc. reflexivity.
Qed.

Section VersionedDepth.

Context {crypto : Crypto} {hex : HexDigests crypto}.

(** X11: the depth written into a versioned hash is the requested one, not
    the one used.  For every requested integer depth [0 <= d < 2 ^ 53] (the
    range in which the template literal writes plain digits and [parseInt]
    is exact), also 0 and values above [MAX_DEPTH], parsing the formatted
    string returns [d] itself together with the digest computed at the
    normalised depth [max(1, min(d, MAX_DEPTH))]. *)
Theorem versionedHash_requested_depth (x : data) (d : Z) :
  0 <= d < 2 ^ 53 ->
  parseVersionedHash (versionedHash x (Int d)) =
  Returned (VersionedHash.mk "1.0.0" d
              (shaInfinity x (Int (Z.max 1 (Z.min d MAX_DEPTH))))).
Proof.
intros [Hd _].
destruct (numberToString_round_trip d Hd) as [Td [Ad Pd]].
destruct (shaInfinity_is_digest x (Int d)) as [bs Hbs].
pose proof (digest_hex bs) as Hhex. rewrite <- Hbs in Hhex.
pose proof (is_digest_truthy _ Hhex) as Th.
unfold is_digest in Hhex. apply andb_prop in Hhex as [_ Ah].
assert (Hsame : shaInfinity x (Int (Z.max 1 (Z.min d MAX_DEPTH))) =
                shaInfinity x (Int d)).
{ rewrite !shaInfinity_rounds. same_rounds. }
rewrite Hsame.
unfold parseVersionedHash, versionedHash.
change ("sha-inf-v" ++ Config.version SHA_INFINITY_CONFIG ++
        "-d" ++ numberToString (Int d) ++ "-" ++ shaInfinity x (Int d))
  with (versioned "1.0.0" (numberToString (Int d)) (shaInfinity x (Int d))).
rewrite match_versioned_assembled by (assumption || reflexivity).
rewrite Th, Ah. cbn [andb]. rewrite Pd. reflexivity.
Qed.

End VersionedDepth.

Section VersionedRejected.

Context {crypto : Crypto}.

(** X12: [versionedHash] accepts depths it cannot write in a form
    [parseVersionedHash] reads.  For a negative depth (hashed as depth 1) and
    for [Infinity] (hashed at [MAX_DEPTH]) the formatted string is rejected
    by the parser. *)
Theorem versionedHash_unparseable (x : data) (d : Z) :
  (d < 0 ->
   parseVersionedHash (versionedHash x (Int d)) =
   Thrown "Invalid versioned hash format") /\
  parseVersionedHash (versionedHash x Infinity) =
  Thrown "Invalid versioned hash format".
Proof.
split.
- intros Hd. unfold parseVersionedHash, versionedHash, numberToString.
  destruct (Z.ltb_spec d 0); [|lia].
  change ("sha-inf-v" ++ Config.version SHA_INFINITY_CONFIG ++ "-d" ++
          ("-" ++ ?n) ++ "-" ++ ?h)
    with (versioned "1.0.0" (String "-" n) h).
  rewrite match_versioned_bad_depth by reflexivity. reflexivity.
- unfold parseVersionedHash, versionedHash, numberToString.
  change ("sha-inf-v" ++ Config.version SHA_INFINITY_CONFIG ++ "-d" ++
          "Infinity" ++ "-" ++ ?h)
    with (versioned "1.0.0" (String "I" "nfinity") h).
  rewrite match_versioned_bad_depth by reflexivity. reflexivity.
Qed.

End VersionedRejected.

(** X13: parsing does not fix a canonical form: every string that parses has
    a different string (one more leading zero in the depth) that parses to
    the same record. *)
Theorem parseVersionedHash_not_injective (s : string) (v : VersionedHash.t) :
  parseVersionedHash s = Returned v ->
  exists s', s' <> s /\ parseVersionedHash s' = Returned v.
Proof.
unfold parseVersionedHash.
destruct (match_versioned s) as [[[g1 g2] g3]|] eqn:E; [|discriminate].
intros H. injection H as <-.
apply match_versioned_sound in E.
destruct E as [-> [T1 [A1 [T2 [A2 [T3 A3]]]]]].
exists (versioned g1 (String "0" g2) g3). split.
- intros Heq. apply (f_equal String.length) in Heq.
  unfold versioned in Heq.
  rewrite !string_length_app in Heq. cbn [String.length] in Heq. lia.
- rewrite match_versioned_assembled;
    [|assumption|assumption|reflexivity|cbn; exact A2].
  rewrite T3, A3. reflexivity.
Qed.

Lemma versionedHash_requested_depth_witness :
  0 <= 5000000 < 2 ^ 53 /\
  parseVersionedHash (versionedHash "data" (Int 5000000)) =
  Returned (VersionedHash.mk "1.0.0" 5000000
              (shaInfinity "data" (Int (Z.max 1 (Z.min 5000000 MAX_DEPTH))))).
Proof.
assert (H : 0 <= 5000000 < 2 ^ 53) by (split; [lia | reflexivity]).
split; [exact H|].
apply (versionedHash_requested_depth "data" 5000000 H).
Defined.

Lemma versionedHash_unparseable_witness :
  parseVersionedHash (versionedHash "data" (Int (-3))) =
  Thrown "Invalid versioned hash format".
Proof.
apply (proj1 (versionedHash_unparseable "data" (-3))). lia.
Defined.

Lemma parseVersionedHash_not_injective_witness :
  exists s',
    s' <> "sha-inf-v1.0.0-d5-abc" /\
    parseVersionedHash s' = Returned (VersionedHash.mk "1.0.0" 5 "abc").
Proof.
apply (parseVersionedHash_not_injective "sha-inf-v1.0.0-d5-abc"). reflexivity.
Defined.

(** ** Keyed hashing *)

Section Keyed.

Context {crypto : Crypto} {mac : CryptoHmac}.




End Keyed.

Example hmac_rfc4231 :
  HMAC.hexmac (map (fun _ => x0b) (seq 0 20)) (list_byte_of_string "Hi There") =
    "b0344c61d8db38535ca8afceaf0bf12b881dc200c9833da726e9376c2e32cff7" /\
  HMAC.hexmac (map (fun _ => xaa) (seq 0 131))
    (list_byte_of_string
       "Test Using Larger Than Block-Size Key - Hash Key First") =
    "60e431591ee0b67f0d8a26aacbf5b77f8e0bc6213728c5140546040f0ee37f54".
Proof. split; vm_compute; reflexivity. Qed.


(** ** Buffers and files *)

Lemma lead_steady (b : byte) : steady (snd (Utf8.lead b)).
Proof.
unfold Utf8.lead.
repeat match goal with
       | |- context [if ?c then _ else _] => destruct c eqn:?
       end; cbn; lia.
Qed.

Lemma lead_invalid (b : byte) :
  (0xF5 <= Byte.to_N b)%N -> Utf8.lead b = (Utf8.replacement, None).
Proof.
intros H. unfold Utf8.lead, Utf8.between.
repeat match goal with
       | |- context [(?a <=? ?b)%N] => destruct (N.leb_spec a b); try lia
       end; reflexivity.
Qed.

Lemma continuation_invalid (p : Utf8.partial) (b : byte) :
  steady (Some p) -> (0xF5 <= Byte.to_N b)%N ->
  Utf8.between (Utf8.lower p) (Byte.to_N b) (Utf8.upper p) = false.
Proof.
cbn. intros Hp Hb. unfold Utf8.between.
destruct (N.leb_spec (Byte.to_N b) (Utf8.upper p)); [lia|].
apply andb_false_r.
Qed.

(** Two bytes that can never occur in UTF-8 decode alike, wherever they
    stand. *)
Lemma decode_invalid_bytes (b1 b2 : byte) (pre suf : list byte) :
  (0xF5 <= Byte.to_N b1)%N -> (0xF5 <= Byte.to_N b2)%N ->
  forall st, steady st ->
    Utf8.decode (pre ++ b1 :: suf) st = Utf8.decode (pre ++ b2 :: suf) st.
Proof.
intros H1 H2. induction pre as [|b pre IH]; intros st Hst.
- cbn [app Utf8.decode]. destruct st as [p|].
  + rewrite !continuation_invalid by assumption.
    rewrite !lead_invalid by assumption. reflexivity.
  + rewrite !lead_invalid by assumption. reflexivity.
- cbn [app Utf8.decode]. destruct st as [p|].
  + destruct (Utf8.between _ _ _).
    * destruct (Utf8.needed p) as [|[|k]];
        rewrite IH by (cbn; lia); reflexivity.
    * pose proof (lead_steady b) as Hb.
      destruct (Utf8.lead b) as [out st']. rewrite (IH st' Hb). reflexivity.
  + pose proof (lead_steady b) as Hb.
    destruct (Utf8.lead b) as [out st']. rewrite (IH st' Hb). reflexivity.
Qed.

Section Files.

Context {crypto : Crypto}.

(** X15: a Buffer is hashed as text.  Bytes that cannot occur in UTF-8 (F5 to
    FF) are all read as U+FFFD, so two files that differ only in such bytes
    get the same hash at every depth, while a read that fails is passed on
    as the failure. *)
Theorem hashFile_invalid_bytes (readFile : string -> outcome (list byte))
        (path1 path2 : string) (pre suf : list byte) (b1 b2 : byte)
        (depth : number) :
  (0xF5 <= Byte.to_N b1)%N -> (0xF5 <= Byte.to_N b2)%N ->
  readFile path1 = Returned (pre ++ b1 :: suf)%list ->
  readFile path2 = Returned (pre ++ b2 :: suf)%list ->
  shaInfinity (Buf (pre ++ b1 :: suf)) depth =
    shaInfinity (Buf (pre ++ b2 :: suf)) depth /\
  hashFile readFile path1 depth = hashFile readFile path2 depth /\
  (forall path message,
      readFile path = Thrown message ->
      hashFile readFile path depth = Thrown message).
Proof.
intros H1 H2 R1 R2.
assert (Hsame : shaInfinity (Buf (pre ++ b1 :: suf)) depth =
                shaInfinity (Buf (pre ++ b2 :: suf)) depth).
{ rewrite !shaInfinity_rounds. cbn [text]. unfold Utf8.toString.
  rewrite (decode_invalid_bytes b1 b2 pre suf H1 H2 None I). reflexivity. }
split; [exact Hsame|]. split.
- unfold hashFile. rewrite R1, R2, Hsame. reflexivity.
- intros path message R. unfold hashFile. rewrite R. reflexivity.
Qed.

End Files.

Lemma hashFile_invalid_bytes_witness :
  let readFile := fun path : string =>
    if (path =? "a.bin")%string then Returned [x61; xff; x62]
    else if (path =? "b.bin")%string then Returned [x61; xfe; x62]
    else Thrown "ENOENT" in
  [x61; xff; x62] <> [x61; xfe; x62] /\
  hashFile readFile "a.bin" (Int 1) = hashFile readFile "b.bin" (Int 1).
Proof.
cbv zeta. split; [discriminate|].
apply (hashFile_invalid_bytes _ "a.bin" "b.bin" [x61] [x62] xff xfe (Int 1)).
- cbn. lia.
- cbn. lia.
- reflexivity.
- reflexivity.
Defined.

(** ** Trees that share a root *)

Section DuplicateLast.

Context {crypto : Crypto} {hex : HexDigests crypto}.

Lemma nextLevel_duplicate_last (l : list string) (h : string) :
  Nat.Even (List.length l) -> truthy h = true ->
  nextLevel (l ++ [h]) = nextLevel (l ++ [h; h]).
Proof.
intros Heven Hh. induction l as [|a|a b l IH] using pair_ind.
- cbn. rewrite Hh. reflexivity.
- destruct Heven as [k Hk]. cbn in Hk. lia.
- cbn [app nextLevel]. rewrite IH; [reflexivity|].
  destruct Heven as [k Hk]. exists (k - 1)%nat. cbn [List.length] in Hk. lia.
Qed.

Lemma levels_from_unique (l : list string) (ls1 : list (list string)) :
  levels_from l ls1 -> forall ls2, levels_from l ls2 -> ls1 = ls2.
Proof.
induction 1 as [l Hl | l ls Hl Hls IH]; intros ls2 H2;
  inversion H2 as [? Hl2 | ? ls' Hl2 Hls2]; subst; try lia.
- reflexivity.
- f_equal. apply IH, Hls2.
Qed.

Lemma levels_from_root_step (l : list string) (ls : list (list string)) :
  (1 < List.length l)%nat -> levels_from l ls ->
  exists ls', levels_from (nextLevel l) ls' /\ last ls [] = last ls' [].
Proof.
intros Hl H. inversion H as [? Hle | ? ls' _ Hls]; subst; [lia|].
exists ls'. split; [exact Hls|].
inversion Hls; reflexivity.
Qed.

(** X16: because an unpaired last hash is paired with itself, a sequence of
    odd length (three items or more) and the same sequence with its last
    item repeated once more have the same root. *)
Theorem merkleTree_duplicate_last (items : list string) (x : string)
        (depth : number) :
  items <> [] -> Nat.Even (List.length items) ->
  MerkleTree.root (merkleTree (items ++ [x]) depth) =
  MerkleTree.root (merkleTree (items ++ [x; x]) depth).
Proof.
intros Hne Heven.
destruct (merkleTree_shape (items ++ [x]) depth) as [ls1 [H1 ->]];
  [destruct items; discriminate|].
destruct (merkleTree_shape (items ++ [x; x]) depth) as [ls2 [H2 ->]];
  [destruct items; discriminate|].
cbn [MerkleTree.root]. rewrite !map_app in H1, H2. cbn [map] in H1, H2.
set (f := fun item => shaInfinity (Str item) depth) in *.
assert (Hlen : (2 <= List.length (map f items))%nat).
{ rewrite length_map. destruct items as [|a [|b items]];
    [congruence | | cbn; lia].
  destruct Heven as [k Hk]. cbn in Hk. lia. }
assert (L1 : (1 < List.length (map f items ++ [f x]))%nat)
  by (rewrite length_app; cbn [List.length]; lia).
assert (L2 : (1 < List.length (map f items ++ [f x; f x]))%nat)
  by (rewrite length_app; cbn [List.length]; lia).
destruct (levels_from_root_step _ _ L1 H1) as [ls1' [H1' ->]].
destruct (levels_from_root_step _ _ L2 H2) as [ls2' [H2' ->]].
rewrite nextLevel_duplicate_last in H1'.
- rewrite (levels_from_unique _ _ H1' _ H2'). reflexivity.
- rewrite length_map. exact Heven.
- apply shaInfinity_truthy.
Qed.

End DuplicateLast.

Lemma merkleTree_duplicate_last_witness :
  ["a"; "b"; "c"] <> ["a"; "b"; "c"; "c"] /\
  MerkleTree.root (merkleTree (["a"; "b"] ++ ["c"]) (Int 1)) =
  MerkleTree.root (merkleTree (["a"; "b"] ++ ["c"; "c"]) (Int 1)).
Proof.
split; [discriminate|].
apply (merkleTree_duplicate_last ["a"; "b"] "c" (Int 1)).
- discriminate.
- exists 1%nat. reflexivity.
Defined.
